(** * A shallow embedding of the Sudoku engine

    The repository holds two near-identical copies of the engine:
    [python/sudoku.py] (a stand-alone module) and [backend/sudoku_ms.py]
    (the same functions behind HTTP endpoints).  The functions
    [get_units_for_cell], [compute_candidates], [assign_digit],
    [scan_and_assign], [get_unit], [check_strict_consistency] and
    [check_candidate_consistency] are the same in both files (the stand-alone
    checkers also print a message); [eliminate_digit] differs, and both
    versions are embedded, in the modules [SudokuPy] and [SudokuMs].

    Modelling choices.
    - A Python [str] is a [string]; only code points below 256 are covered.
      On those, the regular expression class [\d] is the ten ASCII digits and
      no character outside [a-z] upper-cases to an ASCII letter.
    - A Python [int] is a [Z].  The interpreter's cap on the length of decimal
      conversions is not modelled.
    - A puzzle is a Python [dict] from [str] to a cell record.  It is an
      association list in insertion order (the sweep of [scan_and_assign]
      follows that order); writing to an existing key keeps its position.
      Distinct keys hold distinct records and candidate lists, as the loaders
      and [compute_candidates] build them.
    - The functions mutate the puzzle in place, also before raising.  They
      are written in state-passing style and a raised exception carries the
      puzzle as it stands at that point.
    - The recursion of [assign_digit] and the [while] loop of
      [scan_and_assign] take a fuel argument.  Running out of fuel is the
      separate outcome [OutOfFuel]; the theorems show how much fuel is enough. *)

From Stdlib Require Import ZArith List String Ascii Bool Lia Arith.
From Stdlib Require Import Numbers.DecimalString.
From Stdlib Require Import Sorting.Sorted Sorting.Permutation.
Import ListNotations.

Open Scope string_scope.
Open Scope Z_scope.

(* ------------------------------------------------------------------ *)
(** ** Python strings and integers *)

Module PyStr.

(** [str(n)] and the [{n}] field of an f-string, for an [int]. *)
Definition str_of_int (n : Z) : string :=
  NilZero.string_of_int (Z.to_int n).

(** The class [\d]. *)
Definition is_digit (c : ascii) : bool :=
  let n := N_of_ascii c in (N.leb 48 n && N.leb n 57)%bool.

Definition digit_val (c : ascii) : Z := Z.of_N (N_of_ascii c) - 48.

(** The characters that [int()] strips from both ends: tab to carriage
    return, space, and the two white-space code points between 128 and
    255. *)
Definition is_space (c : ascii) : bool :=
  let n := N_of_ascii c in
  ((N.leb 9 n && N.leb n 13) || N.eqb n 32
   || N.eqb n 133 || N.eqb n 160)%bool.

(** [str.upper] on one character, as far as ASCII letters go. *)
Definition upper (c : ascii) : ascii :=
  let n := N_of_ascii c in
  if (N.leb 97 n && N.leb n 122)%bool then ascii_of_N (n - 32) else c.

(** The longest prefix of digits, and what follows it: a greedy [\d*]. *)
Fixpoint span_digits (s : string) : string * string :=
  match s with
  | String c s' =>
      if is_digit c
      then let (ds, rest) := span_digits s' in (String c ds, rest)
      else (EmptyString, s)
  | EmptyString => (EmptyString, EmptyString)
  end.



Fixpoint lstrip (s : string) : string :=
  match s with
  | String c s' => if is_space c then lstrip s' else s
  | EmptyString => EmptyString
  end.

(** Trailing white space removed: [None] when the whole suffix is white. *)
Fixpoint rstrip_aux (s : string) : option string :=
  match s with
  | String c s' =>
      match rstrip_aux s' with
      | Some t => Some (String c t)
      | None => if is_space c then None else Some (String c EmptyString)
      end
  | EmptyString => None
  end.

Definition strip (s : string) : string :=
  match rstrip_aux (lstrip s) with Some t => t | None => EmptyString end.

(** The digits of an [int()] literal: groups of digits separated by single
    underscores.  [prev_digit] tells whether the previous character was a
    digit, so that an underscore is legal here. *)
Fixpoint int_body (prev_digit : bool) (acc : Z) (s : string) : option Z :=
  match s with
  | EmptyString => if prev_digit then Some acc else None
  | String c s' =>
      if is_digit c then int_body true (10 * acc + digit_val c) s'
      else if (Ascii.eqb c "_" && prev_digit)%bool then
        match s' with
        | String d _ => if is_digit d then int_body false acc s' else None
        | EmptyString => None
        end
      else None
  end.

(** [int(s)] for a string [s]: [None] stands for [ValueError]. *)
Definition int_of_str (s : string) : option Z :=
  match strip s with
  | String c t =>
      if Ascii.eqb c "+" then int_body false 0 t
      else if Ascii.eqb c "-" then option_map Z.opp (int_body false 0 t)
      else int_body false 0 (String c t)
  | EmptyString => None
  end.

End PyStr.

Import PyStr.

(* ------------------------------------------------------------------ *)
(** ** Data model *)

Inductive exn : Type := ValueError | KeyError | IndexError.

(** The outcome of a pure function that may raise. *)
Inductive res (A : Type) : Type :=
| Ok (a : A)
| Err (e : exn).
Arguments Ok {A} a.
Arguments Err {A} e.

(** The outcome of a function that mutates a state of type [St] in place. *)
Inductive result (St : Type) : Type :=
| Done (s : St)
| Raised (e : exn) (s : St)
| OutOfFuel.
Arguments Done {St} s.
Arguments Raised {St} e s.
Arguments OutOfFuel {St}.

(** [SudokuCell]: [value] is the solved digit or [None], [candidates] a list. *)
Record cell : Type := mkCell { value : option Z; candidates : list Z }.

Definition set_value (v : option Z) (c : cell) : cell := mkCell v (candidates c).
Definition set_candidates (l : list Z) (c : cell) : cell := mkCell (value c) l.

Definition dict (V : Type) : Type := list (string * V).
Definition puzzle : Type := dict cell.

Section Dict.
Context {V : Type}.

Definition keys (d : dict V) : list string := map fst d.

(** [d.get(k)] *)
Fixpoint get (d : dict V) (k : string) : option V :=
  match d with
  | [] => None
  | (k', v) :: d' => if String.eqb k' k then Some v else get d' k
  end.

(** [k in d] *)
Definition has_key (d : dict V) (k : string) : bool :=
  match get d k with Some _ => true | None => false end.

(** In-place mutation of the record stored under [k]: the entry that
    [get] finds is replaced, at its position. *)
Fixpoint update (d : dict V) (k : string) (f : V -> V) : dict V :=
  match d with
  | [] => []
  | (k', v) :: d' =>
      if String.eqb k' k then (k', f v) :: d' else (k', v) :: update d' k f
  end.

(** [d[k] = v]: overwrite in place, or append a new key. *)
Fixpoint put (d : dict V) (k : string) (v : V) : dict V :=
  match d with
  | [] => [(k, v)]
  | (k', v') :: d' =>
      if String.eqb k' k then (k', v) :: d' else (k', v') :: put d' k v
  end.
End Dict.

(** [range(lo, hi)] *)
Definition range (lo hi : Z) : list Z :=
  map (fun i => lo + Z.of_nat i) (seq 0 (Z.to_nat (hi - lo))).

(** [x in l] for a list or set of ints. *)
Definition mem (x : Z) (l : list Z) : bool := existsb (Z.eqb x) l.

(** [l.remove(x)]: the first occurrence goes. *)
Fixpoint remove_first (x : Z) (l : list Z) : list Z :=
  match l with
  | [] => []
  | y :: l' => if Z.eqb y x then l' else y :: remove_first x l'
  end.

(** [s.add(x)] on a set of ints, kept as a list without repetition. *)
Definition set_add (x : Z) (s : list Z) : list Z :=
  if mem x s then s else s ++ [x].

Definition is_none {A : Type} (o : option A) : bool :=
  match o with None => true | Some _ => false end.

(** A [for] loop whose body mutates the state and may raise. *)
Fixpoint for_each {A St : Type} (body : A -> St -> result St)
    (l : list A) (s : St) : result St :=
  match l with
  | [] => Done s
  | x :: l' =>
      match body x s with
      | Done s' => for_each body l' s'
      | r => r
      end
  end.

(* ------------------------------------------------------------------ *)
(** ** Grid geometry *)

(** The f-string [R{r}C{c}]. *)
Definition cell_key (r c : Z) : string :=
  "R" ++ str_of_int r ++ "C" ++ str_of_int c.

(** [re.match(r"R(\d+)C(\d+)", s)]: the two groups, or [None].  The match
    is anchored at the start only; each [\d+] is greedy and what follows the
    second group is not looked at. *)
Definition re_match_cell (s : string) : option (string * string) :=
  match s with
  | String c0 s1 =>
      if Ascii.eqb c0 "R" then
        match span_digits s1 with
        | (EmptyString, _) => None
        | (g1, String c1 s2) =>
            if Ascii.eqb c1 "C" then
              match span_digits s2 with
              | (EmptyString, _) => None
              | (g2, _) => Some (g1, g2)
              end
            else None
        | (_, EmptyString) => None
        end
      else None
  | EmptyString => None
  end.

(** The dict with keys ['row'], ['col'] and ['block'], in that order. *)
Record units : Type :=
  mkUnits { row : list string; col : list string; block : list string }.

Definition units_values (u : units) : list (list string) :=
  [row u; col u; block u].

Definition block_keys (row_start col_start : Z) : list string :=
  flat_map (fun r => map (fun c => cell_key r c)
                         (range col_start (col_start + 3)))
           (range row_start (row_start + 3)).

Definition get_units_for_cell (cell_ref : string) : res units :=
  match re_match_cell cell_ref with
  | None => Err ValueError
  | Some (g1, g2) =>
      match int_of_str g1, int_of_str g2 with
      | Some row_num, Some col_num =>
          let row_unit := map (fun c => cell_key row_num c) (range 1 10) in
          let col_unit := map (fun r => cell_key r col_num) (range 1 10) in
          let block_row := (row_num - 1) / 3 in
          let block_col := (col_num - 1) / 3 in
          let row_start := block_row * 3 + 1 in
          let col_start := block_col * 3 + 1 in
          Ok (mkUnits row_unit col_unit (block_keys row_start col_start))
      | _, _ => Err ValueError
      end
  end.

(* ------------------------------------------------------------------ *)
(** ** Candidate engine *)

(** The inner loop of [compute_candidates]: the solved values of one unit
    are added to [used_digits]; [puzzle[peer]] raises [KeyError]. *)
Fixpoint collect_unit (p : puzzle) (unit : list string) (used_digits : list Z)
    : res (list Z) :=
  match unit with
  | [] => Ok used_digits
  | peer :: unit' =>
      match get p peer with
      | None => Err KeyError
      | Some pc =>
          match value pc with
          | Some peer_value =>
              collect_unit p unit' (set_add peer_value used_digits)
          | None => collect_unit p unit' used_digits
          end
      end
  end.

(** The outer loop, over [units.values()]. *)
Fixpoint collect_units (p : puzzle) (us : list (list string))
    (used_digits : list Z) : res (list Z) :=
  match us with
  | [] => Ok used_digits
  | unit :: us' =>
      match collect_unit p unit used_digits with
      | Ok used_digits' => collect_units p us' used_digits'
      | Err e => Err e
      end
  end.

(** One turn of the loop over [puzzle.items()].  The cell is the live
    record stored under [cell_ref]; the key comes from the dict itself, so the
    first branch is never taken. *)
Definition compute_candidates_step (cell_ref : string) (p : puzzle)
    : result puzzle :=
  match get p cell_ref with
  | None => Done p
  | Some cell =>
      match value cell with
      | Some _ => Done (update p cell_ref (set_candidates []))
      | None =>
          match get_units_for_cell cell_ref with
          | Err e => Raised e p
          | Ok units =>
              match collect_units p (units_values units) [] with
              | Err e => Raised e p
              | Ok used_digits =>
                  Done (update p cell_ref
                          (set_candidates
                             (filter (fun d => negb (mem d used_digits))
                                     (range 1 10))))
              end
          end
      end
  end.

Definition compute_candidates (p : puzzle) : result puzzle :=
  for_each compute_candidates_step (keys p) p.

(* ------------------------------------------------------------------ *)
(** ** Mutation engine *)

(** The body of the loop over the peers in [assign_digit]; [self] is the
    recursive call. *)
Definition eliminate_from_peer (self : puzzle -> string -> Z -> result puzzle)
    (cell_ref : string) (digit : Z) (peer_ref : string) (p : puzzle)
    : result puzzle :=
  if String.eqb peer_ref cell_ref then Done p
  else
    match get p peer_ref with
    | None => Raised KeyError p
    | Some peer =>
        if (is_none (value peer) && mem digit (candidates peer))%bool then
          let cands := remove_first digit (candidates peer) in
          let p' := update p peer_ref (set_candidates cands) in
          match cands with
          | [sole_candidate] => self p' peer_ref sole_candidate
          | _ => Done p'
          end
        else Done p
    end.

Fixpoint assign_digit (fuel : nat) (p : puzzle) (cell_ref : string)
    (digit : Z) : result puzzle :=
  match fuel with
  | O => OutOfFuel
  | S fuel' =>
      match get p cell_ref with
      | None => Raised ValueError p
      | Some cell =>
          if negb (is_none (value cell)) then Raised ValueError p
          else if negb (mem digit (candidates cell)) then Raised ValueError p
          else
            let p1 :=
              update p cell_ref
                (fun c => set_candidates [] (set_value (Some digit) c)) in
            match get_units_for_cell cell_ref with
            | Err e => Raised e p1
            | Ok units =>
                for_each
                  (fun unit =>
                     for_each
                       (eliminate_from_peer (assign_digit fuel') cell_ref digit)
                       unit)
                  (units_values units) p1
            end
      end
  end.

(** [eliminate_digit] of [backend/sudoku_ms.py]. *)
Module SudokuMs.
Definition eliminate_digit (fuel : nat) (p : puzzle) (cell_ref : string)
    (digit : Z) : result puzzle :=
  match get p cell_ref with
  | None => Raised ValueError p
  | Some cell =>
      if negb (is_none (value cell)) then Raised ValueError p
      else if mem digit (candidates cell) then
        let cands := remove_first digit (candidates cell) in
        let p' := update p cell_ref (set_candidates cands) in
        match cands with
        | [sole_candidate] => assign_digit fuel p' cell_ref sole_candidate
        | _ => Done p'
        end
      else Done p
  end.
End SudokuMs.

(** [eliminate_digit] of [python/sudoku.py]. *)
Module SudokuPy.
Definition eliminate_digit (p : puzzle) (cell_ref : string) (digit : Z)
    : result puzzle :=
  match get p cell_ref with
  | None => Raised ValueError p
  | Some cell =>
      if negb (is_none (value cell)) then Raised ValueError p
      else if mem digit (candidates cell) then
        Done (update p cell_ref
                (set_candidates (remove_first digit (candidates cell))))
      else Done p
  end.
End SudokuPy.

(** One turn of the [for] loop of [scan_and_assign]; the state is the puzzle
    with the [progress] flag. *)
Definition scan_step (depth : nat) (cell_ref : string) (s : puzzle * bool)
    : result (puzzle * bool) :=
  let (p, progress) := s in
  match get p cell_ref with
  | None => Done s
  | Some cell =>
      match value cell, candidates cell with
      | None, [candidate] =>
          match assign_digit depth p cell_ref candidate with
          | Done p' => Done (p', true)
          | Raised e p' => Raised e (p', progress)
          | OutOfFuel => OutOfFuel
          end
      | _, _ => Done s
      end
  end.

(** [sweeps] bounds the turns of the [while] loop, [depth] the recursion of
    each [assign_digit]. *)
Fixpoint scan_and_assign (sweeps depth : nat) (p : puzzle) : result puzzle :=
  match sweeps with
  | O => OutOfFuel
  | S sweeps' =>
      match for_each (scan_step depth) (keys p) (p, false) with
      | Done (p', progress) =>
          if progress then scan_and_assign sweeps' depth p' else Done p'
      | Raised e (p', _) => Raised e p'
      | OutOfFuel => OutOfFuel
      end
  end.

(* ------------------------------------------------------------------ *)
(** ** Unit query *)

(** The keys that [get_unit] builds for a unit type and an index; [None]
    for a type other than [R], [C] and [B]. *)
Definition unit_keys (unit_type : ascii) (index : Z) : option (list string) :=
  if Ascii.eqb unit_type "R" then
    Some (map (fun c => cell_key index c) (range 1 10))
  else if Ascii.eqb unit_type "C" then
    Some (map (fun r => cell_key r index) (range 1 10))
  else if Ascii.eqb unit_type "B" then
    let row_start := ((index - 1) / 3) * 3 + 1 in
    let col_start := ((index - 1) mod 3) * 3 + 1 in
    Some (block_keys row_start col_start)
  else None.

(** The comprehension [{k: puzzle[k] for k in keys if k in puzzle}]. *)
Definition select (p : puzzle) (ks : list string) : dict cell :=
  fold_left
    (fun d k => match get p k with Some c => put d k c | None => d end)
    ks [].

Definition get_unit (p : puzzle) (unit_ref : string) : res (dict cell) :=
  match unit_ref with
  | EmptyString => Err IndexError
  | String c0 rest =>
      let unit_type := upper c0 in
      match int_of_str rest with
      | None => Err ValueError
      | Some index =>
          match unit_keys unit_type index with
          | Some ks => Ok (select p ks)
          | None => Err ValueError
          end
      end
  end.

(* ------------------------------------------------------------------ *)
(** ** Consistency checkers *)

Definition unit_refs : list string :=
  map (fun i => "R" ++ str_of_int i) (range 1 10)
  ++ map (fun i => "C" ++ str_of_int i) (range 1 10)
  ++ map (fun i => "B" ++ str_of_int i) (range 1 10).

(** The loop over the cells of one unit in [check_strict_consistency];
    [seen] maps a digit to the key of the cell that holds it. *)
Fixpoint strict_scan (unit_cells : dict cell) (seen : list (Z * string))
    : bool :=
  match unit_cells with
  | [] => true
  | (cell_key, cell) :: rest =>
      match value cell with
      | Some digit =>
          if existsb (fun e => Z.eqb (fst e) digit) seen then false
          else strict_scan rest (seen ++ [(digit, cell_key)])
      | None => strict_scan rest seen
      end
  end.

Fixpoint check_strict_units (p : puzzle) (refs : list string) : res bool :=
  match refs with
  | [] => Ok true
  | unit_ref :: refs' =>
      match get_unit p unit_ref with
      | Err e => Err e
      | Ok unit_cells =>
          if strict_scan unit_cells [] then check_strict_units p refs'
          else Ok false
      end
  end.

Definition check_strict_consistency (p : puzzle) : res bool :=
  check_strict_units p unit_refs.

(** [{cell["value"] for cell in unit_cells.values() if ... is not None}] *)
Definition solved_digits_of (unit_cells : dict cell) : list Z :=
  fold_left
    (fun s e => match value (snd e) with Some v => set_add v s | None => s end)
    unit_cells [].

(** [any(d in cell["candidates"] for cell in ... if cell["value"] is None)] *)
Definition digit_found (unit_cells : dict cell) (d : Z) : bool :=
  existsb (fun e => mem d (candidates (snd e)))
          (filter (fun e => is_none (value (snd e))) unit_cells).

(** The loop over the digits: [false] at the first digit that is neither
    solved nor pencilled in. *)
Fixpoint coverage_scan (unit_cells : dict cell) (solved_digits : list Z)
    (ds : list Z) : bool :=
  match ds with
  | [] => true
  | d :: ds' =>
      if negb (mem d solved_digits) then
        if negb (digit_found unit_cells d) then false
        else coverage_scan unit_cells solved_digits ds'
      else coverage_scan unit_cells solved_digits ds'
  end.

Fixpoint check_candidate_units (p : puzzle) (refs : list string) : res bool :=
  match refs with
  | [] => Ok true
  | unit_ref :: refs' =>
      match get_unit p unit_ref with
      | Err e => Err e
      | Ok unit_cells =>
          if coverage_scan unit_cells (solved_digits_of unit_cells)
               (range 1 10)
          then check_candidate_units p refs'
          else Ok false
      end
  end.

Definition check_candidate_consistency (p : puzzle) : res bool :=
  check_candidate_units p unit_refs.

(* ------------------------------------------------------------------ *)
(** ** Building a puzzle from rows of tokens *)

(** The second half of [read_puzzle_from_text], from the rows of tokens on:
    the cells are inserted row by row, each with an empty candidate list.
    A token is given as the value it stands for ([None] for [_] and [0]). *)
Definition puzzle_of_rows (rows : list (list (option Z))) : puzzle :=
  fold_left
    (fun (p : puzzle) (rt : Z * list (option Z)) =>
       fold_left
         (fun p ct => put p (cell_key (fst rt) (fst ct)) (mkCell (snd ct) []))
         (combine (range 1 (1 + Z.of_nat (List.length (snd rt)))) (snd rt)) p)
    (combine (range 1 (1 + Z.of_nat (List.length rows))) rows) [].

Definition tokens (l : list Z) : list (option Z) :=
  map (fun d => if Z.eqb d 0 then None else Some d) l.

(** A well-known solvable puzzle whose first row is [5 3 _ _ 7 _ _ _ _]. *)
Definition sample_puzzle : puzzle :=
  puzzle_of_rows (map tokens
    [ [5;3;0; 0;7;0; 0;0;0];
      [6;0;0; 1;9;5; 0;0;0];
      [0;9;8; 0;0;0; 0;6;0];
      [8;0;0; 0;6;0; 0;0;3];
      [4;0;0; 8;0;3; 0;0;1];
      [7;0;0; 0;2;0; 0;0;6];
      [0;6;0; 0;0;0; 2;8;0];
      [0;0;0; 4;1;9; 0;0;5];
      [0;0;0; 0;8;0; 0;7;9] ]).

(** Its solution. *)
Definition solved_puzzle : puzzle :=
  puzzle_of_rows (map tokens
    [ [5;3;4; 6;7;8; 9;1;2];
      [6;7;2; 1;9;5; 3;4;8];
      [1;9;8; 3;4;2; 5;6;7];
      [8;5;9; 7;6;1; 4;2;3];
      [4;2;6; 8;5;3; 7;9;1];
      [7;1;3; 9;2;4; 8;5;6];
      [9;6;1; 5;3;7; 2;8;4];
      [2;8;7; 4;1;9; 6;3;5];
      [3;4;5; 2;8;6; 1;7;9] ]).

(* ------------------------------------------------------------------ *)
(** ** Vocabulary of the properties *)

(** Same keys in the same order, and cells related by [R]. *)
Definition pointwise (R : cell -> cell -> Prop) (p p' : puzzle) : Prop :=
  Forall2 (fun e e' => fst e' = fst e /\ R (snd e) (snd e')) p p'.

(** [post Q r]: the state in which [r] leaves the puzzle, by returning or by
    raising, satisfies [Q]. *)
Definition post {St : Type} (Q : St -> Prop) (r : result St) : Prop :=
  match r with
  | Done s | Raised _ s => Q s
  | OutOfFuel => True
  end.

(** What [assign_digit] and [eliminate_digit] may do to a cell: a solved
    cell stays as it is; an unsolved one stays unsolved or is solved with its
    candidates cleared. *)
Definition cell_step (c c' : cell) : Prop :=
  match value c with
  | Some _ => c' = c
  | None => value c' = None \/ candidates c' = []
  end.

Definition evolves : puzzle -> puzzle -> Prop := pointwise cell_step.

(** The number of Unsolved cells. *)
Definition unsolved_count (p : puzzle) : nat :=
  List.length (filter (fun e => is_none (value (snd e))) p).

(** The invariant of the data model: a Solved cell has no candidates. *)
Definition solved_empty (p : puzzle) : Prop :=
  forall k c, get p k = Some c -> value c <> None -> candidates c = [].

(** Every key of the grid is a cell reference that [get_units_for_cell]
    accepts, and the members of its three units are keys of the grid.  The 81
    cells of a full grid form such a set. *)
Definition closed_keys (ks : list string) : bool :=
  forallb
    (fun k =>
       match get_units_for_cell k with
       | Ok u =>
           forallb (fun peer => existsb (String.eqb peer) ks)
                   (List.concat (units_values u))
       | Err _ => false
       end)
    ks.

Definition grid_closed (p : puzzle) : bool := closed_keys (keys p).

(** What [compute_candidates] may do to a cell: the value stays, and a
    solved cell keeps its candidates or has them cleared. *)
Definition cell_refresh (c c' : cell) : Prop :=
  value c' = value c /\
  (value c <> None -> candidates c' = [] \/ candidates c' = candidates c).

Definition refreshes : puzzle -> puzzle -> Prop := pointwise cell_refresh.

(** Both puzzles hold the same value under every key. *)
Definition same_values (p p' : puzzle) : Prop :=
  forall k, option_map value (get p' k) = option_map value (get p k).

(** The list that one turn of the loop writes into the cell under [k]. *)
Definition new_candidates (p : puzzle) (k : string) : res (list Z) :=
  match get p k with
  | None => Ok []
  | Some cell =>
      match value cell with
      | Some _ => Ok []
      | None =>
          match get_units_for_cell k with
          | Err e => Err e
          | Ok u =>
              match collect_units p (units_values u) [] with
              | Err e => Err e
              | Ok used_digits =>
                  Ok (filter (fun d => negb (mem d used_digits)) (range 1 10))
              end
          end
      end
  end.

(** The solved values that [collect_units] gathers. *)
Definition held_in (p : puzzle) (ks : list string) (d : Z) : Prop :=
  exists peer pc, In peer ks /\ get p peer = Some pc /\ value pc = Some d.


(** The three units built from a row number and a column number. *)
Definition units_at (row_num col_num : Z) : units :=
  mkUnits (map (fun c => cell_key row_num c) (range 1 10))
          (map (fun r => cell_key r col_num) (range 1 10))
          (block_keys (((row_num - 1) / 3) * 3 + 1)
                      (((col_num - 1) / 3) * 3 + 1)).

(** The entries of [p] under the keys [ks], in the order of [ks]. *)
Definition entries (p : puzzle) (ks : list string) : dict cell :=
  flat_map (fun k => match get p k with Some c => [(k, c)] | None => [] end) ks.

(** What [get_unit] makes of a unit reference before it looks at the
    puzzle. *)
Definition unit_ref_keys (unit_ref : string) : res (list string) :=
  match unit_ref with
  | EmptyString => Err IndexError
  | String c0 rest =>
      match int_of_str rest with
      | None => Err ValueError
      | Some index =>
          match unit_keys (upper c0) index with
          | Some ks => Ok ks
          | None => Err ValueError
          end
      end
  end.

(** Row [i], column [i] and block [i] of the grid; the blocks are numbered
    left to right, top to bottom. *)
Definition row_keys (i : Z) : list string :=
  map (fun c => cell_key i c) (range 1 10).

Definition col_keys (i : Z) : list string :=
  map (fun r => cell_key r i) (range 1 10).

Definition box_keys (i : Z) : list string :=
  block_keys (((i - 1) / 3) * 3 + 1) (((i - 1) mod 3) * 3 + 1).

Definition all_units : list (list string) :=
  (map row_keys (range 1 10) ++ map col_keys (range 1 10)
   ++ map box_keys (range 1 10))%list.

Fixpoint nodupb (l : list string) : bool :=
  match l with
  | [] => true
  | x :: l' => (negb (existsb (String.eqb x) l') && nodupb l')%bool
  end.

(** No digit is the solved value of two cells of the unit [ks]. *)
Definition unit_strict (p : puzzle) (ks : list string) : Prop :=
  forall k1 k2 c1 c2 d,
    In k1 ks -> In k2 ks -> k1 <> k2 ->
    get p k1 = Some c1 -> get p k2 = Some c2 ->
    value c1 = Some d -> value c2 = Some d -> False.

Definition solved_values (cells : dict cell) : list Z :=
  flat_map
    (fun e => match value (snd e) with Some d => [d] | None => [] end) cells.

(** Some Unsolved cell of the unit [ks] lists [d] among its candidates. *)
Definition pencilled_in (p : puzzle) (ks : list string) (d : Z) : Prop :=
  exists k c,
    In k ks /\ get p k = Some c /\ value c = None /\ In d (candidates c).

(** Every digit from 1 to 9 is solved or pencilled in somewhere in [ks]. *)
Definition unit_covered (p : puzzle) (ks : list string) : Prop :=
  forall d, 1 <= d <= 9 -> held_in p ks d \/ pencilled_in p ks d.

(** The sample puzzle with its candidates computed. *)
Definition sample_candidates : puzzle :=
  match compute_candidates sample_puzzle with
  | Done p => p
  | _ => []
  end.

(** Following the spec's words: the shape [R<1-9>C<1-9>]. *)
Definition is_nonzero_digit (c : ascii) : bool :=
  let n := N_of_ascii c in (N.leb 49 n && N.leb n 57)%bool.


(** The solved grid with the 3 of R1C2 replaced by a second 5. *)
Definition two_fives : puzzle :=
  update solved_puzzle "R1C2" (set_value (Some 5)).

(** The grid without any clue, candidates computed, and 7 struck from the
    candidates of every cell of row R1. *)
Definition blank_puzzle : puzzle :=
  puzzle_of_rows (repeat (repeat None 9) 9).

Definition no_seven_in_R1 : puzzle :=
  match compute_candidates blank_puzzle with
  | Done p =>
      fold_left
        (fun p k =>
           match SudokuPy.eliminate_digit p k 7 with
           | Done p' => p'
           | _ => p
           end)
        (row_keys 1) p
  | _ => []
  end.

(* ------------------------------------------------------------------ *)
(** ** Vocabulary of the further properties *)

(** A closer account of what the mutation engine may do to a cell.  A solved
    cell stays as it is.  An unsolved cell loses candidates at most, keeps a
    candidate list without repetition if it had one, and, when it is solved,
    takes one of its former candidates as value and ends without
    candidates. *)
Definition cell_narrows (c c' : cell) : Prop :=
  match value c with
  | Some _ => c' = c
  | None =>
      incl (candidates c') (candidates c) /\
      (NoDup (candidates c) -> NoDup (candidates c')) /\
      match value c' with
      | None => True
      | Some d => In d (candidates c) /\ candidates c' = []
      end
  end.

Definition narrows : puzzle -> puzzle -> Prop := pointwise cell_narrows.

(** No candidate list holds a digit twice. *)
Definition nodup_candidates (p : puzzle) : Prop :=
  forall k c, get p k = Some c -> NoDup (candidates c).

(** Every cell that is Unsolved in [p] and Solved in [p'] has had its value
    removed from the Unsolved cells of its three units. *)
Definition cleared (p p' : puzzle) : Prop :=
  forall x cx cx' v u y cy,
    get p x = Some cx -> value cx = None ->
    get p' x = Some cx' -> value cx' = Some v ->
    get_units_for_cell x = Ok u ->
    In y (row u ++ col u ++ block u)%list -> y <> x ->
    get p' y = Some cy -> value cy = None ->
    ~ In v (candidates cy).

(** An Unsolved cell with exactly one candidate. *)
Definition naked_single (c : cell) : Prop :=
  value c = None /\ exists x, candidates c = [x].

(** Candidate soundness, read from a Solved cell: its digit is no candidate
    of an Unsolved cell of its row, column or block. *)
Definition peer_sound (p : puzzle) : Prop :=
  forall x cx v u y cy,
    get p x = Some cx -> value cx = Some v ->
    get_units_for_cell x = Ok u ->
    In y (row u ++ col u ++ block u)%list -> y <> x ->
    get p y = Some cy -> value cy = None ->
    ~ In v (candidates cy).

(** Candidate soundness, read from an Unsolved cell: none of its candidates
    is held by a Solved cell of its row, column or block. *)
Definition candidates_sound (p : puzzle) : Prop :=
  forall y cy u x cx v,
    get p y = Some cy -> value cy = None ->
    get_units_for_cell y = Ok u ->
    In x (row u ++ col u ++ block u)%list ->
    get p x = Some cx -> value cx = Some v ->
    ~ In v (candidates cy).

(** The 81 cell identifiers, row by row. *)
Definition grid_keys : list string :=
  flat_map (fun r => map (fun c => cell_key r c) (range 1 10)) (range 1 10).

(** Every key of the puzzle is one of the 81 cell identifiers. *)
Definition on_grid (p : puzzle) : Prop :=
  forall k, In k (keys p) -> In k grid_keys.

(** The members of the three units of a cell, or nothing for a reference
    that is not accepted. *)
Definition members_of (k : string) : list string :=
  match get_units_for_cell k with
  | Ok u => (row u ++ col u ++ block u)%list
  | Err _ => []
  end.

(** The sample puzzle after 5 has been assigned to R5C5. *)
Definition after_R5C5 : puzzle :=
  match assign_digit 81 sample_candidates "R5C5" 5 with
  | Done p => p
  | _ => []
  end.

(** A puzzle of one cell: the peers of R1C1 are missing. *)
Definition lone_cell : puzzle := [("R1C1", mkCell None [5])].

(** The blank grid with its candidates, and the puzzle left by assigning 5
    to its centre cell. *)
Definition open_grid : puzzle :=
  match compute_candidates blank_puzzle with
  | Done p => p
  | _ => []
  end.

Definition open_after_R5C5 : puzzle :=
  match assign_digit 81 open_grid "R5C5" 5 with
  | Done p => p
  | _ => []
  end.

(* ------------------------------------------------------------------ *)
(** ** Reading and rendering a puzzle as text *)

(** The string methods that [read_puzzle_from_text] and [render_puzzle]
    use, on code points below 256. *)
Module PyText.

(** [str.isspace] for one character: the white space of [str.strip] and
    [str.split]. *)
Definition is_white (c : ascii) : bool :=
  let n := N_of_ascii c in
  ((N.leb 9 n && N.leb n 13) || (N.leb 28 n && N.leb n 32)
   || N.eqb n 133 || N.eqb n 160)%bool.

(** The line boundaries of [str.splitlines]. *)
Definition is_break (c : ascii) : bool :=
  let n := N_of_ascii c in
  ((N.leb 10 n && N.leb n 13) || (N.leb 28 n && N.leb n 30)
   || N.eqb n 133)%bool.

(** The lines of [s], the last one included even when it is empty; a
    carriage return followed by a line feed is one boundary. *)
Fixpoint lines_of (s : string) : list string :=
  match s with
  | EmptyString => [EmptyString]
  | String c s' =>
      if is_break c then
        match s' with
        | String c' s'' =>
            if (Ascii.eqb c "013" && Ascii.eqb c' "010")%bool
            then EmptyString :: lines_of s''
            else EmptyString :: lines_of s'
        | EmptyString => EmptyString :: lines_of s'
        end
      else
        match lines_of s' with
        | l :: ls => String c l :: ls
        | [] => [String c EmptyString]
        end
  end.

Fixpoint drop_last_empty (ls : list string) : list string :=
  match ls with
  | [] => []
  | [l] => if String.eqb l EmptyString then [] else [l]
  | l :: ls' => l :: drop_last_empty ls'
  end.

(** [s.splitlines()] *)
Definition splitlines (s : string) : list string :=
  drop_last_empty (lines_of s).

Fixpoint lstrip (s : string) : string :=
  match s with
  | String c s' => if is_white c then lstrip s' else s
  | EmptyString => EmptyString
  end.

Fixpoint rstrip_aux (s : string) : option string :=
  match s with
  | String c s' =>
      match rstrip_aux s' with
      | Some t => Some (String c t)
      | None => if is_white c then None else Some (String c EmptyString)
      end
  | EmptyString => None
  end.

(** [s.strip()] *)
Definition strip (s : string) : string :=
  match rstrip_aux (lstrip s) with Some t => t | None => EmptyString end.

(** The word that [s] starts with, and the words after it. *)
Fixpoint split_aux (s : string) : string * list string :=
  match s with
  | EmptyString => (EmptyString, [])
  | String c s' =>
      let (w, ws) := split_aux s' in
      if is_white c then
        (EmptyString, match w with EmptyString => ws | _ => w :: ws end)
      else (String c w, ws)
  end.

(** [s.split()] *)
Definition split (s : string) : list string :=
  let (w, ws) := split_aux s in
  match w with EmptyString => ws | _ => w :: ws end.

(** [s.replace(c, "")] for a one-character [c]. *)
Fixpoint remove_char (x : ascii) (s : string) : string :=
  match s with
  | String c s' =>
      if Ascii.eqb c x then remove_char x s' else String c (remove_char x s')
  | EmptyString => EmptyString
  end.

(** [s.startswith(c)] for a one-character [c]. *)
Definition starts_with (x : ascii) (s : string) : bool :=
  match s with
  | String c _ => Ascii.eqb c x
  | EmptyString => false
  end.

(** [sep.join(l)] *)
Fixpoint join (sep : string) (l : list string) : string :=
  match l with
  | [] => EmptyString
  | [x] => x
  | x :: l' => x ++ sep ++ join sep l'
  end.

(** [c * n] for a one-character [c]. *)
Fixpoint repeat_char (c : ascii) (n : nat) : string :=
  match n with
  | O => EmptyString
  | S n' => String c (repeat_char c n')
  end.

Fixpoint insert_sorted (x : Z) (l : list Z) : list Z :=
  match l with
  | [] => [x]
  | y :: l' => if Z.leb x y then x :: l else y :: insert_sorted x l'
  end.

(** [sorted(l)] for a list of ints. *)
Definition sorted (l : list Z) : list Z := fold_right insert_sorted [] l.

End PyText.

(** One line of the text: [None] when the line is skipped (blank, a
    separator, or without tokens), else its tokens. *)
Definition line_tokens (line : string) : option (list string) :=
  let line := PyText.strip line in
  if (String.eqb line EmptyString || PyText.starts_with "-" line)%bool
  then None
  else
    match PyText.split (PyText.remove_char "|" line) with
    | [] => None
    | tokens => Some tokens
    end.

(** The first loop of [read_puzzle_from_text]. *)
Definition text_rows (text : string) : list (list string) :=
  flat_map
    (fun line => match line_tokens line with Some t => [t] | None => [] end)
    (PyText.splitlines text).

(** The value that a token stands for. *)
Definition token_value (token : string) : res (option Z) :=
  if (String.eqb token "_" || String.eqb token "0")%bool then Ok None
  else
    match int_of_str token with
    | Some v => Ok (Some v)
    | None => Err ValueError
    end.

(** The loop over the tokens of row [row_idx], from column [col_idx] on. *)
Fixpoint read_tokens (row_idx col_idx : Z) (tokens : list string)
    (p : puzzle) : res puzzle :=
  match tokens with
  | [] => Ok p
  | token :: tokens' =>
      match token_value token with
      | Err e => Err e
      | Ok cell_value =>
          read_tokens row_idx (col_idx + 1) tokens'
            (put p (cell_key row_idx col_idx) (mkCell cell_value []))
      end
  end.

(** The loop over the rows, from row [row_idx] on. *)
Fixpoint read_rows (row_idx : Z) (rows : list (list string)) (p : puzzle)
    : res puzzle :=
  match rows with
  | [] => Ok p
  | tokens :: rows' =>
      if negb (Nat.eqb (List.length tokens) 9) then Err ValueError
      else
        match read_tokens row_idx 1 tokens p with
        | Err e => Err e
        | Ok p' => read_rows (row_idx + 1) rows' p'
        end
  end.

Definition read_puzzle_from_text (text : string) : res puzzle :=
  let rows := text_rows text in
  if negb (Nat.eqb (List.length rows) 9) then Err ValueError
  else read_rows 1 rows [].

(** What [render_puzzle] shows for one cell. *)
Definition cell_text (show_candidates : bool) (c : cell) : string :=
  match value c with
  | Some v => str_of_int v
  | None =>
      if (show_candidates
          && match candidates c with [] => false | _ => true end)%bool
      then "{" ++ PyText.join ", "
                    (map str_of_int (PyText.sorted (candidates c))) ++ "}"
      else "_"
  end.

(** The texts of the cells of row [r], for the columns [cs]; [puzzle[...]]
    raises [KeyError]. *)
Fixpoint row_texts (show_candidates : bool) (p : puzzle) (r : Z)
    (cs : list Z) : res (list string) :=
  match cs with
  | [] => Ok []
  | c :: cs' =>
      match get p (cell_key r c) with
      | None => Err KeyError
      | Some cell =>
          match row_texts show_candidates p r cs' with
          | Ok l => Ok (cell_text show_candidates cell :: l)
          | Err e => Err e
          end
      end
  end.

(** [" | ".join([" ".join(row_cells[i:i+3]) for i in range(0, 9, 3)])] *)
Definition plain_row (row_cells : list string) : string :=
  PyText.join " | "
    (map (fun i => PyText.join " "
                     (firstn 3 (skipn (Z.to_nat i) row_cells)))
         [0; 3; 6]).

(** The lines of the plain rendering, for the rows [rs]. *)
Fixpoint plain_lines (show_candidates : bool) (p : puzzle) (rs : list Z)
    : res (list string) :=
  match rs with
  | [] => Ok []
  | r :: rs' =>
      match row_texts show_candidates p r (range 1 10) with
      | Err e => Err e
      | Ok row_cells =>
          let row_str := plain_row row_cells in
          match plain_lines show_candidates p rs' with
          | Err e => Err e
          | Ok ls =>
              if (Z.eqb (r mod 3) 0 && Z.ltb r 9)%bool
              then Ok (row_str
                         :: PyText.repeat_char "-" (String.length row_str)
                         :: ls)
              else Ok (row_str :: ls)
          end
      end
  end.

(** The rows of the Markdown table, for the rows [rs]. *)
Fixpoint markdown_rows (show_candidates : bool) (p : puzzle) (rs : list Z)
    : res (list (list string)) :=
  match rs with
  | [] => Ok []
  | r :: rs' =>
      match row_texts show_candidates p r (range 1 10) with
      | Err e => Err e
      | Ok row_cells =>
          match markdown_rows show_candidates p rs' with
          | Err e => Err e
          | Ok rows => Ok ((("R" ++ str_of_int r) :: row_cells) :: rows)
          end
      end
  end.

Definition render_puzzle (p : puzzle) (as_markdown show_candidates : bool)
    : res string :=
  if as_markdown then
    let header :=
      EmptyString :: map (fun col => "C" ++ str_of_int col) (range 1 10) in
    match markdown_rows show_candidates p (range 1 10) with
    | Err e => Err e
    | Ok rows =>
        let table_rows :=
          header :: repeat "---" (List.length header) :: rows in
        Ok (PyText.join (String "010" EmptyString)
              (map (fun row => "| " ++ PyText.join " | " row ++ " |")
                   table_rows))
    end
  else
    match plain_lines show_candidates p (range 1 10) with
    | Err e => Err e
    | Ok lines => Ok (PyText.join (String "010" EmptyString) lines)
    end.


(** The values of a row of tokens, or the first error. *)
Fixpoint token_values (tokens : list string) : res (list (option Z)) :=
  match tokens with
  | [] => Ok []
  | token :: tokens' =>
      match token_value token with
      | Err e => Err e
      | Ok v =>
          match token_values tokens' with
          | Ok vs => Ok (v :: vs)
          | Err e => Err e
          end
      end
  end.

(** The values of rows of 9 tokens each, or the first error. *)
Fixpoint rows_values (rows : list (list string))
    : res (list (list (option Z))) :=
  match rows with
  | [] => Ok []
  | tokens :: rows' =>
      if negb (Nat.eqb (List.length tokens) 9) then Err ValueError
      else
        match token_values tokens with
        | Err e => Err e
        | Ok vs =>
            match rows_values rows' with
            | Ok vss => Ok (vs :: vss)
            | Err e => Err e
            end
        end
  end.

(** The 81 cells in row-major order, holding the given values and no
    candidates. *)
Definition grid_of_values (vs : list (option Z)) : puzzle :=
  combine grid_keys (map (fun v => mkCell v []) vs).

(** The value held under a key, [None] also when the key is missing. *)
Definition value_at (p : puzzle) (k : string) : option Z :=
  match get p k with
  | Some c => value c
  | None => None
  end.


(** What [render_puzzle] shows for the cell under a key. *)
Definition text_at (show_candidates : bool) (p : puzzle) (k : string)
    : string :=
  match get p k with
  | Some c => cell_text show_candidates c
  | None => EmptyString
  end.


(** Every cell of the rows [rs] is present. *)
Definition rows_present (p : puzzle) (rs : list Z) : bool :=
  forallb
    (fun r => forallb (fun c => has_key p (cell_key r c)) (range 1 10)) rs.


(** A value that the data model allows: no digit, or a digit from 1 to 9. *)
Definition digit_or_blank (v : option Z) : Prop :=
  match v with
  | None => True
  | Some d => 1 <= d <= 9
  end.

(** The character that stands for such a value in the plain rendering. *)
Definition value_char (v : option Z) : ascii :=
  match v with
  | None => "_"
  | Some d => ascii_of_N (Z.to_N (48 + d))
  end.

Definition value_token (v : option Z) : string :=
  String (value_char v) EmptyString.

Definition is_token_char (c : ascii) : bool :=
  (Ascii.eqb c "_" || is_nonzero_digit c)%bool.

(** No character of [s] is a line boundary. *)
Fixpoint no_break (s : string) : bool :=
  match s with
  | String c s' => (negb (PyText.is_break c) && no_break s')%bool
  | EmptyString => true
  end.

(** The separator of the plain rendering. *)
Definition dashes : string := PyText.repeat_char "-" 21.

Definition newline : string := String "010" EmptyString.


(** The values of row [r] of the grid. *)
Definition row_values_of (p : puzzle) (r : Z) : list (option Z) :=
  map (fun c => value_at p (cell_key r c)) (range 1 10).

(** The eleven lines of the plain rendering, from the nine row lines. *)
Definition plain_layout (line : Z -> string) : list string :=
  [line 1; line 2; line 3; dashes; line 4; line 5; line 6; dashes;
   line 7; line 8; line 9].

(** What the plain rendering needs to be readable again: the 81 cells are
    present, their values are digits from 1 to 9 or missing, and no
    candidate list is shown. *)
Definition plain_readable (p : puzzle) (show_candidates : bool) : Prop :=
  forall k,
    In k grid_keys ->
    exists c,
      get p k = Some c /\ digit_or_blank (value c) /\
      (show_candidates = true -> value c = None -> candidates c = []).

(* ================================================================== *)
(** * Properties *)

Lemma Ok_inj {A : Type} (a b : A) : Ok a = Ok b -> a = b.
Proof. congruence. Qed.

(* ------------------------------------------------------------------ *)
(** ** Dictionaries *)

Section DictFacts.
Context {V : Type}.
Implicit Types (d : dict V) (k : string) (f : V -> V).

Lemma get_update_same d k f :
  get (update d k f) k = option_map f (get d k).
Proof.
  induction d as [|[k' v] d IH]; simpl; [reflexivity|].
  destruct (String.eqb k' k) eqn:E; simpl; rewrite E; auto.
Qed.

Lemma get_update_other d k k' f :
  k <> k' -> get (update d k f) k' = get d k'.
Proof.
  intros Hne. induction d as [|[k0 v] d IH]; simpl; [reflexivity|].
  destruct (String.eqb k0 k) eqn:E; simpl.
  - apply String.eqb_eq in E. subst k0.
    destruct (String.eqb k k') eqn:E'; [|reflexivity].
    apply String.eqb_eq in E'. contradiction.
  - destruct (String.eqb k0 k'); auto.
Qed.

Lemma keys_update d k f : keys (update d k f) = keys d.
Proof.
  induction d as [|[k' v] d IH]; simpl; [reflexivity|].
  destruct (String.eqb k' k); simpl; congruence.
Qed.

Lemma update_fixed d k f v :
  get d k = Some v -> f v = v -> update d k f = d.
Proof.
  induction d as [|[k' v'] d IH]; simpl; [discriminate|].
  destruct (String.eqb k' k); intros Hg Hf.
  - injection Hg as ->. now rewrite Hf.
  - now rewrite IH.
Qed.

Lemma get_in_keys d k : (exists v, get d k = Some v) <-> In k (keys d).
Proof.
  induction d as [|[k' v] d IH]; simpl.
  - split; [intros [? ?]; discriminate | tauto].
  - destruct (String.eqb k' k) eqn:E.
    + apply String.eqb_eq in E. split; eauto.
    + apply String.eqb_neq in E. rewrite IH. intuition congruence.
Qed.

Lemma get_some_in_keys d k v : get d k = Some v -> In k (keys d).
Proof. intros H. apply get_in_keys. eauto. Qed.

Lemma get_none_not_in d k : get d k = None <-> ~ In k (keys d).
Proof.
  rewrite <- get_in_keys. destruct (get d k).
  - split; [discriminate | intros H; exfalso; eauto].
  - split; [intros _ [? ?]; discriminate | reflexivity].
Qed.

Lemma get_in d k v : get d k = Some v -> In (k, v) d.
Proof.
  induction d as [|[k' v'] d IH]; simpl; [discriminate|].
  destruct (String.eqb k' k) eqn:E; intros H.
  - apply String.eqb_eq in E. injection H as ->. subst. now left.
  - right. auto.
Qed.

Lemma put_fresh d k v : ~ In k (keys d) -> put d k v = (d ++ [(k, v)])%list.
Proof.
  induction d as [|[k' v'] d IH]; simpl; intros H; [reflexivity|].
  destruct (String.eqb k' k) eqn:E.
  - apply String.eqb_eq in E. tauto.
  - rewrite IH; tauto.
Qed.
End DictFacts.

(* ------------------------------------------------------------------ *)
(** ** Lists of ints *)

Lemma mem_In x l : mem x l = true <-> In x l.
Proof.
  unfold mem. rewrite existsb_exists. split.
  - intros [y [Hy E]]. apply Z.eqb_eq in E. now subst.
  - intros H. exists x. split; [assumption | apply Z.eqb_refl].
Qed.

Lemma mem_false x l : mem x l = false <-> ~ In x l.
Proof.
  rewrite <- mem_In. destruct (mem x l); split; congruence.
Qed.

Lemma set_add_In x y s : In y (set_add x s) <-> y = x \/ In y s.
Proof.
  unfold set_add. destruct (mem x s) eqn:E.
  - apply mem_In in E. split; [tauto | intros [-> | ?]; assumption].
  - rewrite in_app_iff. simpl. intuition.
Qed.

Lemma range_In lo hi x : In x (range lo hi) <-> lo <= x < hi.
Proof.
  unfold range. rewrite in_map_iff. split.
  - intros [i [<- Hi]]. apply in_seq in Hi. lia.
  - intros H. exists (Z.to_nat (x - lo)). split; [lia|].
    apply in_seq. lia.
Qed.

Lemma remove_first_incl x l y : In y (remove_first x l) -> In y l.
Proof.
  induction l as [|z l IH]; simpl; [tauto|].
  destruct (Z.eqb z x); simpl; tauto.
Qed.

Lemma remove_first_NoDup x l :
  NoDup l -> NoDup (remove_first x l) /\ ~ In x (remove_first x l).
Proof.
  induction 1 as [|z l Hz Hl [IH1 IH2]]; simpl.
  - split; [constructor | tauto].
  - destruct (Z.eqb z x) eqn:E.
    + apply Z.eqb_eq in E. subst. split; assumption.
    + apply Z.eqb_neq in E. split.
      * constructor; [|assumption].
        intros H. apply Hz. eapply remove_first_incl; eassumption.
      * simpl. tauto.
Qed.

Lemma remove_first_other x l y : y <> x -> In y l -> In y (remove_first x l).
Proof.
  intros Hne. induction l as [|z l IH]; simpl; [tauto|].
  destruct (Z.eqb z x) eqn:E.
  - apply Z.eqb_eq in E. subst. intros [-> | ?]; [contradiction | assumption].
  - simpl. tauto.
Qed.

(* ------------------------------------------------------------------ *)
(** ** Reasoning about outcomes and loops *)

Lemma post_impl {St : Type} (Q Q' : St -> Prop) r :
  (forall s, Q s -> Q' s) -> post Q r -> post Q' r.
Proof. destruct r; simpl; auto. Qed.

Section Loops.
Context {A St : Type}.
Variable body : A -> St -> result St.

(** A loop keeps what every turn keeps, however it ends. *)
Lemma for_each_post (R : St -> St -> Prop) (l : list A) :
  (forall s, R s s) ->
  (forall a b c, R a b -> R b c -> R a c) ->
  (forall x s, In x l -> post (R s) (body x s)) ->
  forall s, post (R s) (for_each body l s).
Proof.
  intros Hrefl Htrans. induction l as [|x l IH]; intros Hbody s; simpl.
  - apply Hrefl.
  - assert (Hx := Hbody x s (or_introl eq_refl)).
    destruct (body x s) as [s'| e s' |]; simpl in *; auto.
    eapply post_impl; [|apply IH].
    + intros s''. apply Htrans. exact Hx.
    + intros y t Hy. apply Hbody. now right.
Qed.

(** A loop returns when every turn does, under an invariant. *)
Lemma for_each_done (I : St -> Prop) (l : list A) :
  (forall x s, In x l -> I s -> exists s', body x s = Done s' /\ I s') ->
  forall s, I s -> exists s', for_each body l s = Done s' /\ I s'.
Proof.
  induction l as [|x l IH]; intros Hbody s Hs; simpl.
  - eauto.
  - destruct (Hbody x s (or_introl eq_refl) Hs) as [s' [-> Hs']].
    apply IH; [|assumption]. intros y t Hy. apply Hbody. now right.
Qed.

(** A loop whose turns all leave [s] as it is returns [s]. *)
Lemma for_each_fixed (l : list A) (s : St) :
  (forall x, In x l -> body x s = Done s) -> for_each body l s = Done s.
Proof.
  induction l as [|x l IH]; intros H; simpl; [reflexivity|].
  rewrite (H x (or_introl eq_refl)). apply IH. intros y Hy. apply H. now right.
Qed.
End Loops.


(* ------------------------------------------------------------------ *)
(** ** Puzzles related cell by cell *)

Section Pointwise.
Variable R : cell -> cell -> Prop.
Hypothesis R_refl : forall c, R c c.
Hypothesis R_trans : forall a b c, R a b -> R b c -> R a c.

Lemma pointwise_refl p : pointwise R p p.
Proof. induction p; constructor; auto. Qed.

Lemma pointwise_trans p1 p2 p3 :
  pointwise R p1 p2 -> pointwise R p2 p3 -> pointwise R p1 p3.
Proof.
  intros H. revert p3.
  induction H as [|e1 e2 p1 p2 [Hk Hr] _ IH]; intros p3 H23.
  - inversion H23. constructor.
  - inversion H23 as [|? e3 ? p3' [Hk' Hr'] Hrest]; subst.
    constructor; [split; [congruence | eauto] | apply IH; exact Hrest].
Qed.

Lemma pointwise_keys p p' : pointwise R p p' -> keys p' = keys p.
Proof.
  induction 1 as [|e e' p p' [Hk _] _ IH]; simpl; [reflexivity|].
  now rewrite Hk, IH.
Qed.

Lemma pointwise_get p p' k c :
  pointwise R p p' -> get p k = Some c ->
  exists c', get p' k = Some c' /\ R c c'.
Proof.
  induction 1 as [|[k1 c1] [k2 c2] p p' [Hk Hr] _ IH]; simpl in *;
    [discriminate|]. subst k2.
  destruct (String.eqb k1 k); [|assumption].
  intros [= <-]. eauto.
Qed.

Lemma pointwise_get_inv p p' k c' :
  pointwise R p p' -> get p' k = Some c' ->
  exists c, get p k = Some c /\ R c c'.
Proof.
  induction 1 as [|[k1 c1] [k2 c2] p p' [Hk Hr] _ IH]; simpl in *;
    [discriminate|]. subst k2.
  destruct (String.eqb k1 k); [|assumption].
  intros [= <-]. eauto.
Qed.

Lemma pointwise_update p k f c :
  get p k = Some c -> R c (f c) -> pointwise R p (update p k f).
Proof.
  induction p as [|[k' c'] p IH]; simpl; [discriminate|].
  destruct (String.eqb k' k); intros Hg Hr.
  - injection Hg as ->. constructor; [simpl; auto | apply pointwise_refl].
  - constructor; [simpl; auto | apply IH; assumption].
Qed.
End Pointwise.

Lemma cell_step_refl c : cell_step c c.
Proof. unfold cell_step. destruct (value c) eqn:E; auto. Qed.

Lemma cell_step_trans a b c : cell_step a b -> cell_step b c -> cell_step a c.
Proof.
  unfold cell_step. destruct (value a) eqn:Ea.
  - intros ->. now rewrite Ea.
  - destruct (value b) eqn:Eb.
    + intros [?|Hb] ->; [discriminate | now right].
    + auto.
Qed.

Lemma evolves_refl p : evolves p p.
Proof. apply pointwise_refl, cell_step_refl. Qed.

Lemma evolves_trans p1 p2 p3 : evolves p1 p2 -> evolves p2 p3 -> evolves p1 p3.
Proof. apply pointwise_trans, cell_step_trans. Qed.

Create HintDb sudoku.
#[local] Hint Resolve evolves_refl evolves_trans cell_step_refl : sudoku.


Lemma evolves_unsolved_count p p' :
  evolves p p' -> (unsolved_count p' <= unsolved_count p)%nat.
Proof.
  unfold unsolved_count.
  induction 1 as [|[k c] [k' c'] p p' [_ Hr] _ IH]; simpl in *; [lia|].
  unfold cell_step in Hr.
  destruct (value c) eqn:E; simpl.
  - subst c'. rewrite E. simpl. exact IH.
  - destruct (is_none (value c')); simpl; lia.
Qed.

Lemma unsolved_count_solve p k f c :
  get p k = Some c -> value c = None -> value (f c) <> None ->
  S (unsolved_count (update p k f)) = unsolved_count p.
Proof.
  unfold unsolved_count.
  induction p as [|[k' c'] p IH]; simpl; [discriminate|].
  destruct (String.eqb k' k); intros Hg Hc Hf; simpl.
  - injection Hg as ->. rewrite Hc. simpl.
    destruct (value (f c)); [reflexivity | contradiction].
  - destruct (is_none (value c')); simpl; rewrite <- (IH Hg Hc Hf); reflexivity.
Qed.

Lemma unsolved_count_pos p k c :
  get p k = Some c -> value c = None -> (0 < unsolved_count p)%nat.
Proof.
  intros Hg Hc. apply get_in in Hg. unfold unsolved_count.
  assert (H : In (k, c) (filter (fun e => is_none (value (snd e))) p)).
  { apply filter_In. simpl. rewrite Hc. auto. }
  destruct (filter _ p); [contradiction | simpl; lia].
Qed.

Lemma evolves_solved_empty p p' :
  evolves p p' -> solved_empty p -> solved_empty p'.
Proof.
  intros He Hp k c' Hg Hv.
  destruct (pointwise_get_inv _ _ _ _ _ He Hg) as [c [Hgc Hr]].
  unfold cell_step in Hr. destruct (value c) eqn:E.
  - subst c'. apply (Hp k c Hgc). congruence.
  - destruct Hr; [contradiction | assumption].
Qed.

(* ------------------------------------------------------------------ *)
(** ** The cascade of [assign_digit] *)

Lemma closed_keys_units ks k :
  closed_keys ks = true -> In k ks ->
  exists u, get_units_for_cell k = Ok u /\
            forall (members : list string) (peer : string),
              In members (units_values u) -> In peer members -> In peer ks.
Proof.
  unfold closed_keys. rewrite forallb_forall. intros H Hk.
  specialize (H k Hk). destruct (get_units_for_cell k) as [u|]; [|discriminate].
  exists u. split; [reflexivity|]. intros members peer Hu Hp.
  rewrite forallb_forall in H.
  assert (Hc : In peer (List.concat (units_values u))).
  { apply in_concat. eauto. }
  apply H in Hc. apply existsb_exists in Hc. destruct Hc as [x [Hx E]].
  apply String.eqb_eq in E. now subst.
Qed.

Lemma evolves_grid_closed p p' :
  evolves p p' -> grid_closed p = true -> grid_closed p' = true.
Proof.
  intros He. unfold grid_closed. now rewrite (pointwise_keys _ _ _ He).
Qed.

Lemma assign_digit_unfold fuel p cell_ref digit :
  assign_digit (S fuel) p cell_ref digit =
  match get p cell_ref with
  | None => Raised ValueError p
  | Some cell =>
      if negb (is_none (value cell)) then Raised ValueError p
      else if negb (mem digit (candidates cell)) then Raised ValueError p
      else
        let p1 :=
          update p cell_ref
            (fun c => set_candidates [] (set_value (Some digit) c)) in
        match get_units_for_cell cell_ref with
        | Err e => Raised e p1
        | Ok units =>
            for_each
              (fun unit =>
                 for_each
                   (eliminate_from_peer (assign_digit fuel) cell_ref digit)
                   unit)
              (units_values units) p1
        end
  end.
Proof. reflexivity. Qed.

Lemma narrow_evolves p k c l :
  get p k = Some c -> value c = None ->
  evolves p (update p k (set_candidates l)).
Proof.
  intros Hg Hv. eapply pointwise_update; eauto with sudoku.
  unfold cell_step. rewrite Hv. now left.
Qed.

Lemma solve_evolves p k c d :
  get p k = Some c -> value c = None ->
  evolves p (update p k (fun c => set_candidates [] (set_value (Some d) c))).
Proof.
  intros Hg Hv. eapply pointwise_update; eauto with sudoku.
  unfold cell_step. rewrite Hv. now right.
Qed.

Lemma eliminate_from_peer_evolves self cell_ref digit :
  (forall p k d, post (evolves p) (self p k d)) ->
  forall peer p,
    post (evolves p) (eliminate_from_peer self cell_ref digit peer p).
Proof.
  intros Hself peer p. unfold eliminate_from_peer.
  destruct (String.eqb peer cell_ref); [apply evolves_refl|].
  destruct (get p peer) as [c|] eqn:Hg; [|apply evolves_refl].
  destruct (is_none (value c) && mem digit (candidates c))%bool eqn:Hc;
    [|apply evolves_refl].
  apply andb_true_iff in Hc. destruct Hc as [Hv _].
  assert (Hn : value c = None) by (destruct (value c); [discriminate|auto]).
  assert (He := narrow_evolves p peer c (remove_first digit (candidates c)) Hg Hn).
  cbv zeta.
  destruct (remove_first digit (candidates c)) as [|x [|y l]]; try exact He.
  eapply post_impl; [|apply Hself]. intros s. now apply evolves_trans.
Qed.

(** However it ends, [assign_digit] leaves solved cells as they were and
    clears the candidates of the cells it solves. *)
Lemma assign_digit_evolves fuel :
  forall p k d, post (evolves p) (assign_digit fuel p k d).
Proof.
  induction fuel as [|fuel IH]; intros p k d; [exact I|].
  rewrite assign_digit_unfold.
  destruct (get p k) as [c|] eqn:Hg; [|apply evolves_refl].
  destruct (is_none (value c)) eqn:Hv; cbn [negb]; [|apply evolves_refl].
  destruct (mem d (candidates c)); cbn [negb]; [|apply evolves_refl].
  assert (Hn : value c = None) by (destruct (value c); [discriminate|auto]).
  assert (He := solve_evolves p k c d Hg Hn).
  destruct (get_units_for_cell k) as [u|e]; [|exact He].
  eapply post_impl; [intros s; apply evolves_trans; exact He|].
  apply for_each_post; [apply evolves_refl | apply evolves_trans |].
  intros members s _.
  apply for_each_post; [apply evolves_refl | apply evolves_trans |].
  intros peer s' _. now apply eliminate_from_peer_evolves.
Qed.


(** On a closed grid, with fuel for every Unsolved cell, a call whose three
    checks pass returns. *)
Lemma assign_digit_returns fuel :
  forall p k d c,
    grid_closed p = true ->
    (unsolved_count p <= fuel)%nat ->
    get p k = Some c -> value c = None -> mem d (candidates c) = true ->
    exists p', assign_digit fuel p k d = Done p'.
Proof.
  induction fuel as [|fuel IH]; intros p k d c Hcl Hfuel Hg Hv Hm.
  - pose proof (unsolved_count_pos p k c Hg Hv). lia.
  - rewrite assign_digit_unfold, Hg, Hv, Hm. cbn [is_none negb].
    set (p1 := update p k _).
    assert (He : evolves p p1) by (eapply solve_evolves; eauto).
    assert (Hc1 : (unsolved_count p1 <= fuel)%nat).
    { assert (S (unsolved_count p1) = unsolved_count p); [|lia].
      apply (unsolved_count_solve p k _ c Hg Hv). simpl. discriminate. }
    destruct (closed_keys_units _ k Hcl (get_some_in_keys _ _ _ Hg))
      as [u [-> Hu]].
    destruct (for_each_done
                (fun unit =>
                   for_each
                     (eliminate_from_peer (assign_digit fuel) k d) unit)
                (evolves p1) (units_values u)) with (s := p1)
      as [p' [Hp' _]]; [|apply evolves_refl|eauto].
    intros unit s Hunit Hs.
    destruct (for_each_done
                (eliminate_from_peer (assign_digit fuel) k d)
                (evolves p1) unit) with (s := s)
      as [s' [Hs' Hes']]; [|exact Hs|eauto].
    clear s Hs. intros peer s Hpeer Hs.
    assert (Hks : keys s = keys p).
    { rewrite (pointwise_keys _ _ _ Hs). apply (pointwise_keys _ _ _ He). }
    assert (Hcs : (unsolved_count s <= fuel)%nat).
    { pose proof (evolves_unsolved_count _ _ Hs). lia. }
    assert (Hcls : grid_closed s = true).
    { unfold grid_closed. now rewrite Hks. }
    unfold eliminate_from_peer.
    destruct (String.eqb peer k); [eauto|].
    assert (Hin : In peer (keys s)).
    { rewrite Hks. eapply Hu; eauto. }
    apply get_in_keys in Hin. destruct Hin as [pc Hpc]. rewrite Hpc.
    destruct (is_none (value pc) && mem d (candidates pc))%bool eqn:Hcond;
      [|eauto].
    apply andb_true_iff in Hcond. destruct Hcond as [Hvp _].
    assert (Hn : value pc = None) by (destruct (value pc); [discriminate|auto]).
    cbv zeta.
    assert (Hs1 := narrow_evolves s peer pc (remove_first d (candidates pc))
                     Hpc Hn).
    destruct (remove_first d (candidates pc)) as [|x [|y l]] eqn:Hrm;
      try (eexists; split; [reflexivity | eapply evolves_trans; eauto]).
    set (s1 := update s peer _) in *.
    destruct (IH s1 peer x (set_candidates [x] pc)) as [s2 Hs2].
    + eapply evolves_grid_closed; eauto.
    + pose proof (evolves_unsolved_count _ _ Hs1). lia.
    + unfold s1. rewrite get_update_same, Hpc. reflexivity.
    + exact Hn.
    + simpl. now rewrite Z.eqb_refl.
    + exists s2. split; [exact Hs2|].
      pose proof (assign_digit_evolves fuel s1 peer x) as Hev.
      rewrite Hs2 in Hev. simpl in Hev.
      eauto using evolves_trans.
Qed.

(* ------------------------------------------------------------------ *)
(** ** The recomputation of [compute_candidates] *)

Lemma cell_refresh_refl c : cell_refresh c c.
Proof. split; auto. Qed.

Lemma cell_refresh_trans a b c :
  cell_refresh a b -> cell_refresh b c -> cell_refresh a c.
Proof.
  intros [Hv1 Hc1] [Hv2 Hc2]. split; [congruence|].
  intros Ha. assert (Hb : value b <> None) by congruence.
  destruct (Hc1 Ha) as [E|E], (Hc2 Hb) as [E'|E'];
    [now left | left; congruence | now left | right; congruence].
Qed.

Lemma refreshes_same_values p p' : refreshes p p' -> same_values p p'.
Proof.
  intros H k. destruct (get p k) as [c|] eqn:Hg.
  - destruct (pointwise_get _ _ _ _ _ H Hg) as [c' [-> [Hv _]]].
    simpl. now rewrite Hv.
  - destruct (get p' k) as [c'|] eqn:Hg'; [|reflexivity].
    destruct (pointwise_get_inv _ _ _ _ _ H Hg') as [c [Hc _]]. congruence.
Qed.

Lemma refreshes_solved_empty p p' :
  refreshes p p' -> solved_empty p -> solved_empty p'.
Proof.
  intros H Hp k c' Hg Hv.
  destruct (pointwise_get_inv _ _ _ _ _ H Hg) as [c [Hgc [Hval Hc]]].
  rewrite Hval in Hv. destruct (Hc Hv) as [E|E]; [assumption|].
  rewrite E. now apply (Hp k).
Qed.

Lemma compute_candidates_step_eq p k c :
  get p k = Some c ->
  compute_candidates_step k p =
  match new_candidates p k with
  | Ok l => Done (update p k (set_candidates l))
  | Err e => Raised e p
  end.
Proof.
  intros Hg. unfold compute_candidates_step, new_candidates. rewrite Hg.
  destruct (value c); [reflexivity|].
  destruct (get_units_for_cell k); [|reflexivity].
  destruct (collect_units p _ _); reflexivity.
Qed.

Lemma collect_unit_ext p p' members acc :
  same_values p p' -> collect_unit p' members acc = collect_unit p members acc.
Proof.
  intros H. revert acc. induction members as [|peer l IH]; intros acc; simpl;
    [reflexivity|].
  specialize (H peer).
  destruct (get p' peer) as [c'|], (get p peer) as [c|]; simpl in H;
    try discriminate; [|reflexivity].
  injection H as ->. destruct (value c); apply IH.
Qed.

Lemma collect_units_ext p p' us acc :
  same_values p p' -> collect_units p' us acc = collect_units p us acc.
Proof.
  intros H. revert acc. induction us as [|members us IH]; intros acc; simpl;
    [reflexivity|].
  rewrite (collect_unit_ext p p') by assumption.
  destruct (collect_unit p members acc); [apply IH | reflexivity].
Qed.

Lemma new_candidates_ext p p' k :
  same_values p p' -> new_candidates p' k = new_candidates p k.
Proof.
  intros H. unfold new_candidates. pose proof (H k) as Hk.
  destruct (get p' k) as [c'|], (get p k) as [c|]; simpl in Hk;
    try discriminate; [|reflexivity].
  injection Hk as ->. destruct (value c); [reflexivity|].
  destruct (get_units_for_cell k); [|reflexivity].
  now rewrite (collect_units_ext p p').
Qed.

Lemma compute_candidates_step_refreshes k p :
  post (refreshes p) (compute_candidates_step k p).
Proof.
  destruct (get p k) as [c|] eqn:Hg.
  - rewrite (compute_candidates_step_eq p k c Hg).
    destruct (new_candidates p k) as [l|e] eqn:Hl; simpl.
    + eapply pointwise_update; eauto using cell_refresh_refl.
      split; [reflexivity|]. intros Hv. unfold new_candidates in Hl.
      rewrite Hg in Hl. destruct (value c); [|contradiction].
      injection Hl as <-. now left.
    + apply pointwise_refl, cell_refresh_refl.
  - unfold compute_candidates_step. rewrite Hg.
    apply pointwise_refl, cell_refresh_refl.
Qed.

Lemma compute_candidates_loop_refreshes ks p :
  post (refreshes p) (for_each compute_candidates_step ks p).
Proof.
  apply for_each_post.
  - intros s. apply pointwise_refl, cell_refresh_refl.
  - intros a b c. apply pointwise_trans, cell_refresh_trans.
  - intros k s _. apply compute_candidates_step_refreshes.
Qed.

(** After the loop has run over [ks], every key of [ks] holds the list
    computed for it, and the other cells are as before. *)
Lemma compute_candidates_loop ks :
  forall s s',
    for_each compute_candidates_step ks s = Done s' ->
    (forall k, In k ks -> In k (keys s)) ->
    (forall k, In k ks ->
       exists c', get s' k = Some c' /\ new_candidates s k = Ok (candidates c'))
    /\ (forall k, ~ In k ks -> get s' k = get s k).
Proof.
  induction ks as [|k ks IH]; intros s s' Hrun Hks.
  - injection Hrun as <-. split; [intros k []|reflexivity].
  - simpl in Hrun.
    destruct (proj2 (get_in_keys s k) (Hks k (or_introl eq_refl))) as [c Hg].
    pose proof (compute_candidates_step_refreshes k s) as Hstep.
    rewrite (compute_candidates_step_eq s k c Hg) in Hrun, Hstep.
    destruct (new_candidates s k) as [l|e] eqn:Hl; [|discriminate].
    simpl in Hstep. set (s1 := update s k (set_candidates l)) in *.
    assert (Hsv : same_values s s1) by now apply refreshes_same_values.
    destruct (IH s1 s' Hrun) as [Hin Hout].
    { intros k' Hk'. rewrite (pointwise_keys _ _ _ Hstep). apply Hks. now right. }
    assert (Hdec : forall k', In k' ks \/ ~ In k' ks).
    { intros k'. destruct (in_dec string_dec k' ks); auto. }
    split.
    + intros k' [<-|Hk'].
      * destruct (Hdec k) as [Hk|Hk].
        -- destruct (Hin k Hk) as [c' [Hc' Hn]]. exists c'. split; [assumption|].
           now rewrite <- (new_candidates_ext s s1).
        -- rewrite (Hout k Hk). unfold s1. rewrite get_update_same, Hg.
           simpl. eauto.
      * destruct (Hin k' Hk') as [c' [Hc' Hn]]. exists c'. split; [assumption|].
        now rewrite <- (new_candidates_ext s s1).
    + intros k' Hk'. rewrite Hout by (simpl in Hk'; tauto).
      unfold s1. apply get_update_other. simpl in Hk'. tauto.
Qed.

Lemma collect_unit_In p members :
  forall acc used,
    collect_unit p members acc = Ok used ->
    forall v, In v used <-> In v acc \/ held_in p members v.
Proof.
  unfold held_in.
  induction members as [|peer l IH]; intros acc used H v; simpl in H.
  - injection H as <-. split; [auto|]. intros [?|[? [? [[] _]]]]. assumption.
  - destruct (get p peer) as [pc|] eqn:Hg; [|discriminate].
    destruct (value pc) as [pv|] eqn:Hv.
    + rewrite (IH _ _ H v), set_add_In. split.
      * intros [[->|?]|[x [xc [Hx Hxc]]]]; auto.
        -- right. exists peer, pc. simpl. auto.
        -- right. exists x, xc. simpl. auto.
      * intros [?|[x [xc [[<-|Hx] [Hxg Hxv]]]]]; auto.
        -- left. left. congruence.
        -- right. exists x, xc. auto.
    + rewrite (IH _ _ H v). split.
      * intros [?|[x [xc [Hx Hxc]]]]; auto.
        right. exists x, xc. simpl. auto.
      * intros [?|[x [xc [[<-|Hx] [Hxg Hxv]]]]]; auto.
        -- congruence.
        -- right. exists x, xc. auto.
Qed.

Lemma collect_units_In p us :
  forall acc used,
    collect_units p us acc = Ok used ->
    forall v, In v used <-> In v acc \/ held_in p (List.concat us) v.
Proof.
  induction us as [|members us IH]; intros acc used H v; simpl in H.
  - injection H as <-. split; [auto|]. intros [?|[? [? [[] _]]]]. assumption.
  - destruct (collect_unit p members acc) as [acc'|] eqn:Hm; [|discriminate].
    rewrite (IH _ _ H v), (collect_unit_In _ _ _ _ Hm v).
    unfold held_in. simpl. split.
    + intros [[?|[x [xc [Hx Hxc]]]]|[x [xc [Hx Hxc]]]]; auto;
        right; exists x, xc; rewrite in_app_iff; auto.
    + intros [?|[x [xc [Hx Hxc]]]]; auto.
      rewrite in_app_iff in Hx. destruct Hx; [left; right | right];
        exists x, xc; auto.
Qed.

Lemma collect_unit_ok p members :
  (forall peer, In peer members -> In peer (keys p)) ->
  forall acc, exists used, collect_unit p members acc = Ok used.
Proof.
  induction members as [|peer l IH]; intros H acc; simpl; [eauto|].
  destruct (proj2 (get_in_keys p peer) (H peer (or_introl eq_refl))) as [pc ->].
  destruct (value pc); apply IH; intros x Hx; apply H; now right.
Qed.

Lemma collect_units_ok p us :
  (forall members peer, In members us -> In peer members -> In peer (keys p)) ->
  forall acc, exists used, collect_units p us acc = Ok used.
Proof.
  induction us as [|members us IH]; intros H acc; simpl; [eauto|].
  destruct (collect_unit_ok p members) with (acc := acc) as [acc' ->].
  - intros peer Hp. apply (H members); [now left | assumption].
  - apply IH. intros m peer Hm. apply H. now right.
Qed.

(** On a closed grid [compute_candidates] returns. *)
Lemma compute_candidates_returns p :
  grid_closed p = true -> exists p', compute_candidates p = Done p'.
Proof.
  intros Hcl. unfold compute_candidates.
  destruct (for_each_done compute_candidates_step
              (fun s => keys s = keys p) (keys p)) with (s := p)
    as [p' [Hp' _]]; [|reflexivity|eauto].
  intros k s Hk Hs.
  assert (Hin : In k (keys s)) by now rewrite Hs.
  apply get_in_keys in Hin. destruct Hin as [c Hg].
  pose proof (compute_candidates_step_refreshes k s) as Hstep.
  rewrite (compute_candidates_step_eq s k c Hg) in *.
  assert (Hn : exists l, new_candidates s k = Ok l).
  { unfold new_candidates. rewrite Hg. destruct (value c); [eauto|].
    destruct (closed_keys_units _ k Hcl Hk) as [u [-> Hu]].
    destruct (collect_units_ok s (units_values u)) with (acc := @nil Z)
      as [used ->]; [|eauto].
    intros m peer Hm Hpeer. rewrite Hs. eauto. }
  destruct Hn as [l Hl]. rewrite Hl in *. simpl in Hstep.
  eexists. split; [reflexivity|].
  rewrite (pointwise_keys _ _ _ Hstep). exact Hs.
Qed.

(** Once the three checks have passed, the outcome descends from the
    puzzle in which the target cell is solved. *)
Lemma assign_digit_after_solve fuel p k d c :
  get p k = Some c -> value c = None -> mem d (candidates c) = true ->
  post (evolves
          (update p k (fun c => set_candidates [] (set_value (Some d) c))))
       (assign_digit (S fuel) p k d).
Proof.
  intros Hg Hv Hm. rewrite assign_digit_unfold, Hg, Hv, Hm. cbn [is_none negb].
  cbv zeta. destruct (get_units_for_cell k) as [u|e]; [|apply evolves_refl].
  apply for_each_post; [apply evolves_refl | apply evolves_trans |].
  intros members s _.
  apply for_each_post; [apply evolves_refl | apply evolves_trans |].
  intros peer s' _. apply eliminate_from_peer_evolves.
  apply assign_digit_evolves.
Qed.

(** A call that returns has solved its target: the count of Unsolved cells
    went down. *)
Lemma assign_digit_decreases fuel p k d p' :
  assign_digit fuel p k d = Done p' ->
  (unsolved_count p' < unsolved_count p)%nat.
Proof.
  destruct fuel as [|fuel]; [discriminate|]. intros Hrun.
  pose proof Hrun as Hrun'. rewrite assign_digit_unfold in Hrun'.
  destruct (get p k) as [c|] eqn:Hg; [|discriminate].
  destruct (value c) eqn:Hv; [discriminate|]. cbn [is_none negb] in Hrun'.
  destruct (mem d (candidates c)) eqn:Hm; [|discriminate].
  pose proof (assign_digit_after_solve fuel p k d c Hg Hv Hm) as Hpost.
  rewrite Hrun in Hpost. simpl in Hpost.
  apply evolves_unsolved_count in Hpost.
  pose proof (unsolved_count_solve p k
                (fun c => set_candidates [] (set_value (Some d) c)) c Hg Hv).
  simpl in H. assert (Some d <> None) by discriminate. intuition lia.
Qed.

(* ------------------------------------------------------------------ *)
(** ** The sweeps of [scan_and_assign] *)

Lemma scan_step_evolves depth k s :
  post (fun s' => evolves (fst s) (fst s')) (scan_step depth k s).
Proof.
  destruct s as [p progress]. unfold scan_step.
  destruct (get p k) as [c|]; [|apply evolves_refl].
  destruct (value c); [apply evolves_refl|].
  destruct (candidates c) as [|x [|y l]]; try apply evolves_refl.
  pose proof (assign_digit_evolves depth p k x) as H.
  destruct (assign_digit depth p k x); simpl in *; auto.
Qed.

Lemma sweep_evolves depth ks s :
  post (fun s' => evolves (fst s) (fst s')) (for_each (scan_step depth) ks s).
Proof.
  apply (for_each_post (scan_step depth)
           (fun a b => evolves (fst a) (fst b))).
  - intros a. apply evolves_refl.
  - intros a b c. apply evolves_trans.
  - intros k t _. apply scan_step_evolves.
Qed.

Lemma scan_and_assign_evolves sweeps depth :
  forall p, post (evolves p) (scan_and_assign sweeps depth p).
Proof.
  induction sweeps as [|sweeps IH]; intros p; [exact I|]. simpl.
  pose proof (sweep_evolves depth (keys p) (p, false)) as H.
  destruct (for_each (scan_step depth) (keys p) (p, false))
    as [[p' progress]|e [p' progress]|]; simpl in *; auto.
  destruct progress; [|exact H].
  eapply post_impl; [|apply IH]. intros s. now apply evolves_trans.
Qed.

(** On a closed grid, with one sweep more than there are Unsolved cells and
    fuel for every cascade, [scan_and_assign] returns. *)
Lemma scan_and_assign_returns sweeps depth :
  forall p,
    grid_closed p = true ->
    (unsolved_count p < sweeps)%nat ->
    (unsolved_count p <= depth)%nat ->
    exists p', scan_and_assign sweeps depth p = Done p'.
Proof.
  induction sweeps as [|sweeps IH]; intros p Hcl Hsw Hd; [lia|]. simpl.
  destruct (for_each_done (scan_step depth)
              (fun s => evolves p (fst s) /\
                        (snd s = true ->
                         (unsolved_count (fst s) < unsolved_count p)%nat))
              (keys p)) with (s := (p, false))
    as [[p' progress] [-> [Hev Hpr]]].
  - intros k [s b] _ [Hs Hb]. simpl in *. unfold scan_step.
    destruct (get s k) as [c|] eqn:Hg; [|eauto].
    destruct (value c) eqn:Hv; [eauto|].
    destruct (candidates c) as [|x [|y l]] eqn:Hc; eauto.
    pose proof (evolves_unsolved_count _ _ Hs) as Hle.
    destruct (assign_digit_returns depth s k x c) as [s' Hs'];
      [eapply evolves_grid_closed; eauto | lia | assumption | assumption
      | rewrite Hc; simpl; now rewrite Z.eqb_refl |].
    rewrite Hs'. eexists. split; [reflexivity|]. simpl.
    pose proof (assign_digit_evolves depth s k x) as He.
    rewrite Hs' in He. simpl in He.
    pose proof (assign_digit_decreases _ _ _ _ _ Hs').
    split; [eauto using evolves_trans | lia].
  - simpl. split; [apply evolves_refl | discriminate].
  - simpl in *. destruct progress; [|eauto].
    specialize (Hpr eq_refl). pose proof (evolves_unsolved_count _ _ Hev).
    apply IH; [eapply evolves_grid_closed; eauto | lia | lia].
Qed.

(* ------------------------------------------------------------------ *)
(** ** Matching a cell reference *)





(* ------------------------------------------------------------------ *)
(** ** Reading digits *)










(* ------------------------------------------------------------------ *)
(** ** The cells of a unit *)

Lemma entries_In p ks k c :
  In (k, c) (entries p ks) <-> In k ks /\ get p k = Some c.
Proof.
  unfold entries. rewrite in_flat_map. split.
  - intros [k' [Hk' H]]. destruct (get p k') as [c'|] eqn:Hg; [|destruct H].
    destruct H as [[= <- <-]|[]]. auto.
  - intros [Hk Hg]. exists k. rewrite Hg. simpl. auto.
Qed.

Lemma entries_keys p ks k : In k (keys (entries p ks)) -> In k ks.
Proof.
  unfold keys. rewrite in_map_iff. intros [[k' c] [<- H]].
  apply entries_In in H. tauto.
Qed.

Lemma select_from p ks :
  forall acc,
    NoDup ks -> (forall k, In k ks -> ~ In k (keys acc)) ->
    fold_left
      (fun d k => match get p k with Some c => put d k c | None => d end)
      ks acc = (acc ++ entries p ks)%list.
Proof.
  induction ks as [|k ks IH]; intros acc Hnd Hacc; simpl.
  - now rewrite app_nil_r.
  - inversion Hnd as [|? ? Hk Hks]; subst.
    destruct (get p k) as [c|] eqn:Hg.
    + rewrite put_fresh by (apply Hacc; now left).
      rewrite IH; [now rewrite <- app_assoc | assumption |].
      intros k' Hk'. unfold keys. rewrite map_app, in_app_iff. simpl.
      intros [H|[<-|[]]]; [|contradiction].
      apply (Hacc k'); [now right | assumption].
    + apply IH; [assumption|]. intros k' Hk'. apply Hacc. now right.
Qed.

(** For keys without repetition the comprehension lists the cells found. *)
Lemma select_entries p ks : NoDup ks -> select p ks = entries p ks.
Proof.
  intros H. unfold select. rewrite select_from; auto.
Qed.

(* ------------------------------------------------------------------ *)
(** ** The 27 units *)

Lemma get_unit_keys p unit_ref :
  get_unit p unit_ref =
  match unit_ref_keys unit_ref with
  | Ok ks => Ok (select p ks)
  | Err e => Err e
  end.
Proof.
  unfold get_unit, unit_ref_keys. destruct unit_ref as [|c0 rest]; [reflexivity|].
  destruct (int_of_str rest); [|reflexivity].
  destruct (unit_keys (upper c0) z); reflexivity.
Qed.

Lemma nodupb_NoDup l : nodupb l = true -> NoDup l.
Proof.
  induction l as [|x l IH]; simpl; [constructor|].
  intros H. apply andb_true_iff in H. destruct H as [Hx Hl].
  constructor; [|auto]. intros Hin.
  apply negb_true_iff in Hx.
  assert (existsb (String.eqb x) l = true); [|congruence].
  apply existsb_exists. exists x. split; [assumption | apply String.eqb_refl].
Qed.

Lemma unit_refs_keys : map unit_ref_keys unit_refs = map Ok all_units.
Proof. vm_compute. reflexivity. Qed.

Lemma all_units_NoDup : Forall (@NoDup string) all_units.
Proof.
  apply Forall_forall. intros ks Hks. apply nodupb_NoDup.
  assert (H : forallb nodupb all_units = true) by (vm_compute; reflexivity).
  rewrite forallb_forall in H. auto.
Qed.

Lemma all_units_count : List.length all_units = 27%nat.
Proof. reflexivity. Qed.

(* ------------------------------------------------------------------ *)
(** ** The strict check *)

Lemma solved_values_In p ks d :
  In d (solved_values (entries p ks)) <-> held_in p ks d.
Proof.
  unfold solved_values, held_in. rewrite in_flat_map. split.
  - intros [[k c] [He Hd]]. apply entries_In in He. simpl in Hd.
    destruct (value c) as [v|] eqn:Hv; [|destruct Hd].
    destruct Hd as [<-|[]]. exists k, c. tauto.
  - intros [k [c [Hk [Hg Hv]]]]. exists (k, c). split.
    + apply entries_In. auto.
    + simpl. rewrite Hv. now left.
Qed.

Lemma NoDup_snoc (l : list Z) x : NoDup l -> ~ In x l -> NoDup (l ++ [x]).
Proof.
  induction 1 as [|y l Hy Hl IH]; simpl; intros Hx.
  - constructor; [tauto | constructor].
  - constructor.
    + rewrite in_app_iff. simpl. intuition congruence.
    + apply IH. tauto.
Qed.

Lemma strict_scan_NoDup cells :
  forall seen,
    NoDup (map fst seen) ->
    (strict_scan cells seen = true <->
     NoDup (map fst seen ++ solved_values cells)).
Proof.
  induction cells as [|[k c] cells IH]; intros seen Hseen; simpl.
  - rewrite app_nil_r. tauto.
  - destruct (value c) as [d|] eqn:Hv; simpl; [|now apply IH].
    destruct (existsb (fun e => Z.eqb (fst e) d) seen) eqn:Hex.
    + split; [discriminate|]. intros Hnd. exfalso.
      apply NoDup_remove_2 in Hnd. apply Hnd. rewrite in_app_iff. left.
      apply existsb_exists in Hex. destruct Hex as [e [He Hd]].
      apply Z.eqb_eq in Hd. subst d. now apply in_map.
    + assert (Hd : ~ In d (map fst seen)).
      { intros Hin. apply in_map_iff in Hin. destruct Hin as [e [<- He]].
        assert (existsb (fun e0 => Z.eqb (fst e0) (fst e)) seen = true);
          [|congruence].
        apply existsb_exists. exists e. split; [assumption|apply Z.eqb_refl]. }
      rewrite IH.
      * rewrite map_app, <- app_assoc. simpl. tauto.
      * rewrite map_app. simpl. now apply NoDup_snoc.
Qed.

Lemma solved_values_strict p ks :
  NoDup ks -> (NoDup (solved_values (entries p ks)) <-> unit_strict p ks).
Proof.
  induction 1 as [|k ks Hk Hks IH].
  - simpl. split; [intros _ ? ? ? ? ? [] | constructor].
  - assert (Hrest : unit_strict p (k :: ks) -> unit_strict p ks).
    { intros H k1 k2 c1 c2 d H1 H2. apply H; now right. }
    assert (Hsplit : entries p (k :: ks) =
                     ((match get p k with Some c => [(k, c)] | None => [] end)
                        ++ entries p ks)%list) by reflexivity.
    rewrite Hsplit. unfold solved_values at 1. rewrite flat_map_app.
    fold (solved_values (entries p ks)).
    destruct (get p k) as [c|] eqn:Hg; simpl.
    2:{ rewrite IH. split; [|exact Hrest].
        intros H k1 k2 c1 c2 d [<-|H1] [<-|H2] Hne; try congruence.
        now apply H. }
    destruct (value c) as [d|] eqn:Hv; simpl.
    2:{ rewrite IH. split; [|exact Hrest].
        intros H k1 k2 c1 c2 d [<-|H1] [<-|H2] Hne; try congruence.
        now apply H. }
    rewrite NoDup_cons_iff, IH, solved_values_In. split.
    + intros [Hd Hs] k1 k2 c1 c2 d' [<-|H1] [<-|H2] Hne G1 G2 V1 V2.
      * contradiction.
      * apply Hd. exists k2, c2. split; [assumption|]. split; congruence.
      * apply Hd. exists k1, c1. split; [assumption|]. split; congruence.
      * eapply Hs; eauto.
    + intros H. split; [|now apply Hrest].
      intros [k2 [c2 [H2 [G2 V2]]]].
      apply (H k k2 c c2 d); auto; [now left | now right | congruence].
Qed.

Lemma strict_unit_iff p ks :
  NoDup ks -> (strict_scan (select p ks) [] = true <-> unit_strict p ks).
Proof.
  intros H. rewrite select_entries by assumption.
  rewrite (strict_scan_NoDup _ []) by constructor. simpl.
  now apply solved_values_strict.
Qed.

Lemma check_strict_units_eq p :
  forall refs us,
    map unit_ref_keys refs = map Ok us ->
    check_strict_units p refs =
    Ok (forallb (fun ks => strict_scan (select p ks) []) us).
Proof.
  induction refs as [|ref refs IH]; intros [|ks us] H; try discriminate;
    simpl; [reflexivity|].
  simpl in H. injection H as Hk Hrest. rewrite get_unit_keys, Hk.
  destruct (strict_scan (select p ks) []); simpl; [now apply IH | reflexivity].
Qed.

(* ------------------------------------------------------------------ *)
(** ** The coverage check *)

Lemma solved_digits_from (cells : dict cell) :
  forall acc d,
    In d (fold_left
            (fun s (e : string * cell) =>
               match value (snd e) with Some v => set_add v s | None => s end)
            cells acc)
    <-> In d acc \/ exists e, In e cells /\ value (snd e) = Some d.
Proof.
  induction cells as [|e cells IH]; intros acc d; simpl.
  - split; [auto | intros [?|[? [[] _]]]; assumption].
  - rewrite IH. destruct (value (snd e)) as [v|] eqn:Hv.
    + rewrite set_add_In. split.
      * intros [[->|?]|[e' [He' Hd]]]; eauto.
      * intros [?|[e' [[<-|He'] Hd]]]; eauto.
        left. left. congruence.
    + split.
      * intros [?|[e' [He' Hd]]]; eauto.
      * intros [?|[e' [[<-|He'] Hd]]]; eauto. congruence.
Qed.

Lemma solved_digits_of_In p ks d :
  In d (solved_digits_of (entries p ks)) <-> held_in p ks d.
Proof.
  unfold solved_digits_of, held_in. rewrite solved_digits_from. simpl. split.
  - intros [[]|[[k c] [He Hv]]]. apply entries_In in He. exists k, c. tauto.
  - intros [k [c [Hk [Hg Hv]]]]. right. exists (k, c).
    split; [apply entries_In; auto | assumption].
Qed.

Lemma digit_found_iff p ks d :
  digit_found (entries p ks) d = true <-> pencilled_in p ks d.
Proof.
  unfold digit_found, pencilled_in. rewrite existsb_exists. split.
  - intros [[k c] [He Hm]]. apply filter_In in He. destruct He as [He Hn].
    apply entries_In in He. apply mem_In in Hm. simpl in *.
    exists k, c. destruct (value c); [discriminate | tauto].
  - intros [k [c [Hk [Hg [Hv Hd]]]]]. exists (k, c). split.
    + apply filter_In. simpl. rewrite Hv. split; [apply entries_In|]; auto.
    + now apply mem_In.
Qed.

Lemma coverage_scan_iff cells solved ds :
  coverage_scan cells solved ds = true <->
  forall d, In d ds -> mem d solved = true \/ digit_found cells d = true.
Proof.
  induction ds as [|d ds IH]; simpl.
  - split; [intros _ ? [] | reflexivity].
  - destruct (mem d solved) eqn:Hm; simpl.
    + rewrite IH. split; [intros H d' [<-|Hd']; auto | auto].
    + destruct (digit_found cells d) eqn:Hf; simpl.
      * rewrite IH. split; [intros H d' [<-|Hd']; auto | auto].
      * split; [discriminate|]. intros H.
        destruct (H d (or_introl eq_refl)); congruence.
Qed.

Lemma coverage_unit_iff p ks :
  NoDup ks ->
  (coverage_scan (select p ks) (solved_digits_of (select p ks)) (range 1 10)
   = true <-> unit_covered p ks).
Proof.
  intros Hnd. rewrite select_entries by assumption.
  rewrite coverage_scan_iff. unfold unit_covered.
  split; intros H d Hd.
  - destruct (H d) as [Hm|Hf]; [apply range_In; lia | left | right].
    + now apply solved_digits_of_In, mem_In.
    + now apply digit_found_iff.
  - apply range_In in Hd. destruct (H d) as [Hh|Hp]; [lia | left | right].
    + now apply mem_In, solved_digits_of_In.
    + now apply digit_found_iff.
Qed.

Lemma check_candidate_units_eq p :
  forall refs us,
    map unit_ref_keys refs = map Ok us ->
    check_candidate_units p refs =
    Ok (forallb
          (fun ks =>
             coverage_scan (select p ks) (solved_digits_of (select p ks))
               (range 1 10))
          us).
Proof.
  induction refs as [|ref refs IH]; intros [|ks us] H; try discriminate;
    [reflexivity|].
  cbn [map] in H. injection H as Hk Hrest.
  cbn [check_candidate_units forallb]. rewrite get_unit_keys, Hk.
  destruct (coverage_scan (select p ks) (solved_digits_of (select p ks))
              (range 1 10)); cbn [andb]; [now apply IH | reflexivity].
Qed.

(* ------------------------------------------------------------------ *)
(** ** More on [select] and [eliminate_digit] *)






Lemma eliminate_digit_ms_evolves fuel p k d :
  post (evolves p) (SudokuMs.eliminate_digit fuel p k d).
Proof.
  unfold SudokuMs.eliminate_digit.
  destruct (get p k) as [c|] eqn:Hg; [|apply evolves_refl].
  destruct (value c) eqn:Hv; cbn [is_none negb]; [apply evolves_refl|].
  destruct (mem d (candidates c)); [|apply evolves_refl].
  cbv zeta.
  pose proof (narrow_evolves p k c (remove_first d (candidates c)) Hg Hv) as He.
  destruct (remove_first d (candidates c)) as [|x [|y l]]; try exact He.
  eapply post_impl; [|apply assign_digit_evolves].
  intros s. now apply evolves_trans.
Qed.

Lemma eliminate_digit_py_evolves p k d :
  post (evolves p) (SudokuPy.eliminate_digit p k d).
Proof.
  unfold SudokuPy.eliminate_digit.
  destruct (get p k) as [c|] eqn:Hg; [|apply evolves_refl].
  destruct (value c) eqn:Hv; cbn [is_none negb]; [apply evolves_refl|].
  destruct (mem d (candidates c)); [|apply evolves_refl].
  exact (narrow_evolves p k c _ Hg Hv).
Qed.

Lemma units_members u :
  List.concat (units_values u) = (row u ++ col u ++ block u)%list.
Proof. unfold units_values. simpl. now rewrite app_nil_r. Qed.

Lemma sample_puzzle_closed : grid_closed sample_puzzle = true.
Proof. vm_compute. reflexivity. Qed.

Lemma sample_candidates_closed : grid_closed sample_candidates = true.
Proof. vm_compute. reflexivity. Qed.

(* ================================================================== *)
(** * The claims *)

(** C1.  Whenever [compute_candidates] returns, it has kept keys and
    values, every Solved cell has an empty candidate list, and the candidates
    of every Unsolved cell are exactly the digits from 1 to 9 that no cell of
    its row, column or block holds as solved value; hence no candidate of an
    Unsolved cell is held by a Solved peer.  On a closed grid (every key a
    cell of the grid, with its row, column and block present, as in a puzzle
    of 81 cells) it does return. *)
Theorem compute_candidates_sound (p : puzzle) :
  (grid_closed p = true -> exists p', compute_candidates p = Done p') /\
  (forall p',
     compute_candidates p = Done p' ->
     keys p' = keys p /\
     same_values p p' /\
     forall k c,
       get p' k = Some c ->
       (value c <> None -> candidates c = []) /\
       (value c = None ->
        exists u,
          get_units_for_cell k = Ok u /\
          (forall d,
             In d (candidates c) <->
             1 <= d <= 9 /\ ~ held_in p' (row u ++ col u ++ block u) d) /\
          (forall d peer pc,
             In d (candidates c) ->
             In peer (row u ++ col u ++ block u) ->
             get p' peer = Some pc -> value pc <> Some d))).
Proof.
  split; [apply compute_candidates_returns|]. intros p' Hrun.
  pose proof (compute_candidates_loop_refreshes (keys p) p) as Hre.
  unfold compute_candidates in Hrun. rewrite Hrun in Hre. simpl in Hre.
  pose proof (pointwise_keys _ _ _ Hre) as Hkeys.
  pose proof (refreshes_same_values _ _ Hre) as Hsv.
  destruct (compute_candidates_loop (keys p) p p' Hrun (fun k H => H))
    as [Hin _].
  split; [exact Hkeys|]. split; [exact Hsv|]. intros k c Hg.
  destruct (Hin k) as [c' [Hc' Hn]].
  { rewrite <- Hkeys. eapply get_some_in_keys; eauto. }
  rewrite <- (new_candidates_ext p p' k Hsv) in Hn.
  unfold new_candidates in Hn. rewrite Hg in Hn.
  assert (c' = c) by congruence. subst c'. split.
  - intros Hv. destruct (value c); [congruence | contradiction].
  - intros Hv. rewrite Hv in Hn.
    destruct (get_units_for_cell k) as [u|]; [|discriminate].
    destruct (collect_units p' (units_values u) []) as [used|] eqn:Hused;
      [|discriminate].
    apply Ok_inj in Hn. exists u.
    assert (Hchar : forall d,
               In d (candidates c) <->
               1 <= d <= 9 /\ ~ held_in p' (row u ++ col u ++ block u) d).
    { intros d. rewrite <- Hn, filter_In, range_In, negb_true_iff, mem_false.
      rewrite (collect_units_In _ _ _ _ Hused d), units_members. simpl.
      intuition lia. }
    split; [reflexivity|]. split; [exact Hchar|].
    intros d peer pc Hd Hpeer Hpc Hval. apply Hchar in Hd.
    destruct Hd as [_ Hd]. apply Hd. exists peer, pc. auto.
Qed.

(** On the sample puzzle: the candidates of R1C3 come out as 1, 2 and 4,
    the digits that its row, column and block leave free. *)
Lemma compute_candidates_sound_witness :
  exists p' c,
    compute_candidates sample_puzzle = Done p' /\
    get p' "R1C3" = Some c /\
    (forall d, In d (candidates c) -> d <> 5 /\ d <> 3 /\ d <> 7).
Proof.
  destruct (proj1 (compute_candidates_sound sample_puzzle)
              sample_puzzle_closed) as [p' Hrun].
  destruct (proj2 (compute_candidates_sound sample_puzzle) p' Hrun)
    as [Hkeys [Hsv Hcells]].
  assert (Hp' : p' = sample_candidates).
  { unfold sample_candidates. rewrite Hrun. reflexivity. }
  exists p', (mkCell None [1; 2; 4]).
  split; [exact Hrun|]. split; [rewrite Hp'; vm_compute; reflexivity|].
  simpl. intros d [<-|[<-|[<-|[]]]]; repeat split; discriminate.
Defined.

(** C10.  [compute_candidates] is idempotent: run on the puzzle that a first
    run returned, it returns that puzzle unchanged. *)
Theorem compute_candidates_idempotent (p p' : puzzle) :
  compute_candidates p = Done p' -> compute_candidates p' = Done p'.
Proof.
  intros Hrun.
  pose proof (compute_candidates_loop_refreshes (keys p) p) as Hre.
  unfold compute_candidates in *. rewrite Hrun in Hre. simpl in Hre.
  pose proof (pointwise_keys _ _ _ Hre) as Hkeys.
  pose proof (refreshes_same_values _ _ Hre) as Hsv.
  destruct (compute_candidates_loop (keys p) p p' Hrun (fun k H => H))
    as [Hin _].
  apply for_each_fixed. intros k Hk. rewrite Hkeys in Hk.
  destruct (Hin k Hk) as [c [Hc Hn]].
  rewrite (compute_candidates_step_eq p' k c Hc).
  rewrite (new_candidates_ext p p' k Hsv), Hn.
  rewrite (update_fixed p' k _ c Hc); [reflexivity|].
  destruct c. reflexivity.
Qed.

Lemma compute_candidates_idempotent_witness :
  compute_candidates sample_puzzle = Done sample_candidates /\
  compute_candidates sample_candidates = Done sample_candidates.
Proof.
  assert (H : compute_candidates sample_puzzle = Done sample_candidates)
    by (vm_compute; reflexivity).
  split; [exact H|].
  exact (compute_candidates_idempotent sample_puzzle sample_candidates H).
Defined.



(** C9.  On an Unsolved cell of the puzzle, [eliminate_digit] with a digit
    that is not among the candidates raises nothing and returns the puzzle as
    it was; this holds for both versions of the function. *)
Theorem eliminate_digit_absent (p : puzzle) (cell_ref : string) (digit : Z)
    (cell : cell) :
  get p cell_ref = Some cell ->
  value cell = None ->
  ~ In digit (candidates cell) ->
  (forall fuel, SudokuMs.eliminate_digit fuel p cell_ref digit = Done p) /\
  SudokuPy.eliminate_digit p cell_ref digit = Done p.
Proof.
  intros Hg Hv Hd. apply mem_false in Hd.
  unfold SudokuMs.eliminate_digit, SudokuPy.eliminate_digit.
  rewrite Hg, Hv, Hd. split; reflexivity.
Qed.

Lemma eliminate_digit_absent_witness :
  (forall fuel,
     SudokuMs.eliminate_digit fuel sample_candidates "R1C3" 5
     = Done sample_candidates) /\
  SudokuPy.eliminate_digit sample_candidates "R1C3" 5 = Done sample_candidates.
Proof.
  apply (eliminate_digit_absent sample_candidates "R1C3" 5
           (mkCell None [1; 2; 4])).
  - vm_compute. reflexivity.
  - reflexivity.
  - simpl. intros [H|[H|[H|[]]]]; discriminate H.
Defined.

(** C2, as the code has it.  On an Unsolved cell of the puzzle,
    [eliminate_digit] with a digit among the candidates removes its first
    occurrence (the digit itself when the candidates hold no digit twice) and
    leaves the other cells alone.  The version of [backend/sudoku_ms.py] then
    calls [assign_digit] on the cell when exactly one candidate remains, and
    returns what that call returns; the version of [python/sudoku.py] returns
    at once and never assigns. *)
Theorem eliminate_digit_present (p : puzzle) (cell_ref : string) (digit : Z)
    (cell : cell) :
  get p cell_ref = Some cell ->
  value cell = None ->
  In digit (candidates cell) ->
  let cands := remove_first digit (candidates cell) in
  let p1 := update p cell_ref (set_candidates cands) in
  get p1 cell_ref = Some (mkCell None cands) /\
  (forall k, k <> cell_ref -> get p1 k = get p k) /\
  (NoDup (candidates cell) ->
   forall d, In d cands <-> In d (candidates cell) /\ d <> digit) /\
  (forall fuel,
     SudokuMs.eliminate_digit fuel p cell_ref digit =
     match cands with
     | [sole_candidate] => assign_digit fuel p1 cell_ref sole_candidate
     | _ => Done p1
     end) /\
  SudokuPy.eliminate_digit p cell_ref digit = Done p1.
Proof.
  intros Hg Hv Hd cands p1. apply mem_In in Hd.
  split; [|split; [|split; [|split]]].
  - unfold p1. rewrite get_update_same, Hg. simpl.
    unfold set_candidates. now rewrite Hv.
  - intros k Hk. unfold p1. apply get_update_other. congruence.
  - intros Hnd d. destruct (remove_first_NoDup digit _ Hnd) as [_ Hnot].
    split.
    + intros H. split; [eapply remove_first_incl; eauto|].
      intros ->. contradiction.
    + intros [H Hne]. now apply remove_first_other.
  - intros fuel. unfold SudokuMs.eliminate_digit. now rewrite Hg, Hv, Hd.
  - unfold SudokuPy.eliminate_digit. now rewrite Hg, Hv, Hd.
Qed.

Lemma eliminate_digit_present_witness :
  SudokuMs.eliminate_digit 81 sample_candidates "R1C4" 2 =
  assign_digit 81 (update sample_candidates "R1C4" (set_candidates [6]))
    "R1C4" 6.
Proof.
  refine (proj1 (proj2 (proj2 (proj2
            (eliminate_digit_present sample_candidates "R1C4" 2
               (mkCell None [2; 6]) _ _ _)))) 81%nat).
  - vm_compute. reflexivity.
  - reflexivity.
  - simpl. left. reflexivity.
Defined.

(** C2 as stated fails on [python/sudoku.py]: eliminating 2 from the cell
    R1C4 of the sample puzzle, whose candidates are 2 and 6, leaves the cell
    Unsolved with the single candidate 6, which no call of [assign_digit]
    can return. *)
Lemma eliminate_digit_py_no_cascade :
  get sample_candidates "R1C4" = Some (mkCell None [2; 6]) /\
  exists p1,
    SudokuPy.eliminate_digit sample_candidates "R1C4" 2 = Done p1 /\
    get p1 "R1C4" = Some (mkCell None [6]) /\
    forall fuel, assign_digit fuel p1 "R1C4" 6 <> Done p1.
Proof.
  split; [vm_compute; reflexivity|].
  exists (update sample_candidates "R1C4" (set_candidates [6])).
  split; [vm_compute; reflexivity|].
  split; [vm_compute; reflexivity|].
  intros fuel H. apply assign_digit_decreases in H. lia.
Qed.

(** C4.  Each core operation keeps the invariant that a Solved cell has no
    candidates: it holds in the puzzle that the operation returns, and also
    in the puzzle as it stands when the operation raises.  On a closed grid
    [scan_and_assign] does return, within one sweep more than there are
    Unsolved cells. *)
Theorem solved_empty_preserved (p : puzzle) :
  solved_empty p ->
  post solved_empty (compute_candidates p) /\
  (forall fuel k d, post solved_empty (assign_digit fuel p k d)) /\
  (forall fuel k d, post solved_empty (SudokuMs.eliminate_digit fuel p k d)) /\
  (forall k d, post solved_empty (SudokuPy.eliminate_digit p k d)) /\
  (forall sweeps depth, post solved_empty (scan_and_assign sweeps depth p)) /\
  (grid_closed p = true ->
   exists p',
     scan_and_assign (S (unsolved_count p)) (unsolved_count p) p = Done p' /\
     solved_empty p').
Proof.
  intros Hp.
  assert (Hev : forall r, post (evolves p) r -> post solved_empty r).
  { intros r. apply post_impl. intros s Hs.
    eapply evolves_solved_empty; eauto. }
  split; [|split; [|split; [|split; [|split]]]].
  - eapply post_impl; [|apply compute_candidates_loop_refreshes].
    intros s Hs. eapply refreshes_solved_empty; eauto.
  - intros fuel k d. apply Hev, assign_digit_evolves.
  - intros fuel k d. apply Hev, eliminate_digit_ms_evolves.
  - intros k d. apply Hev, eliminate_digit_py_evolves.
  - intros sweeps depth. apply Hev, scan_and_assign_evolves.
  - intros Hcl.
    destruct (scan_and_assign_returns (S (unsolved_count p))
                (unsolved_count p) p Hcl) as [p' Hrun]; [lia | lia |].
    exists p'. split; [exact Hrun|].
    pose proof (scan_and_assign_evolves (S (unsolved_count p))
                  (unsolved_count p) p) as H.
    rewrite Hrun in H. eapply evolves_solved_empty; eauto.
Qed.

Lemma solved_empty_check p :
  forallb
    (fun e : string * cell =>
       (is_none (value (snd e))
        || match candidates (snd e) with [] => true | _ => false end)%bool)
    p = true ->
  solved_empty p.
Proof.
  rewrite forallb_forall. intros H k c Hg Hv.
  specialize (H (k, c) (get_in _ _ _ Hg)). simpl in H.
  destruct (value c); [|contradiction]. simpl in H.
  destruct (candidates c); [reflexivity | discriminate].
Qed.

Lemma sample_candidates_solved_empty : solved_empty sample_candidates.
Proof. apply solved_empty_check. vm_compute. reflexivity. Qed.

Lemma solved_empty_preserved_witness :
  exists p',
    scan_and_assign 52 51 sample_candidates = Done p' /\ solved_empty p'.
Proof.
  exact (proj2 (proj2 (proj2 (proj2 (proj2
           (solved_empty_preserved sample_candidates
              sample_candidates_solved_empty)))))
           sample_candidates_closed).
Defined.










Lemma check_strict_consistency_eq p :
  check_strict_consistency p =
  Ok (forallb (fun ks => strict_scan (select p ks) []) all_units).
Proof. apply check_strict_units_eq, unit_refs_keys. Qed.

Lemma check_candidate_consistency_eq p :
  check_candidate_consistency p =
  Ok (forallb
        (fun ks =>
           coverage_scan (select p ks) (solved_digits_of (select p ks))
             (range 1 10))
        all_units).
Proof. apply check_candidate_units_eq, unit_refs_keys. Qed.

(** C7.  [check_strict_consistency] always returns a boolean.  It returns
    [true] exactly when in none of the 27 units two cells are solved with the
    same digit, and so [false] as soon as some unit holds a digit twice. *)
Theorem check_strict_consistency_spec (p : puzzle) :
  (exists b, check_strict_consistency p = Ok b) /\
  (check_strict_consistency p = Ok true <->
   forall ks, In ks all_units -> unit_strict p ks) /\
  (forall ks k1 k2 c1 c2 d,
     In ks all_units -> In k1 ks -> In k2 ks -> k1 <> k2 ->
     get p k1 = Some c1 -> get p k2 = Some c2 ->
     value c1 = Some d -> value c2 = Some d ->
     check_strict_consistency p = Ok false).
Proof.
  rewrite check_strict_consistency_eq.
  assert (Hiff : forallb (fun ks => strict_scan (select p ks) []) all_units
                 = true <-> forall ks, In ks all_units -> unit_strict p ks).
  { rewrite forallb_forall. pose proof all_units_NoDup as Hnd.
    rewrite Forall_forall in Hnd.
    split; intros H ks Hks; apply strict_unit_iff; auto. }
  split; [eauto|]. split.
  - rewrite <- Hiff. split; [apply Ok_inj | intros ->; reflexivity].
  - intros ks k1 k2 c1 c2 d Hks H1 H2 Hne G1 G2 V1 V2.
    destruct (forallb _ all_units); [|reflexivity].
    exfalso. apply (proj1 Hiff eq_refl ks Hks k1 k2 c1 c2 d); assumption.
Qed.

Lemma check_strict_consistency_spec_witness :
  check_strict_consistency two_fives = Ok false.
Proof.
  refine (proj2 (proj2 (check_strict_consistency_spec two_fives))
            (row_keys 1) "R1C1" "R1C2" (mkCell (Some 5) []) (mkCell (Some 5) [])
            5 _ _ _ _ _ _ eq_refl eq_refl).
  - left. reflexivity.
  - left. reflexivity.
  - right. left. reflexivity.
  - discriminate.
  - reflexivity.
  - reflexivity.
Defined.

(** The solved sample grid has its 81 cells solved and passes the check. *)
Lemma check_strict_consistency_solved :
  unsolved_count solved_puzzle = 0%nat /\
  List.length solved_puzzle = 81%nat /\
  check_strict_consistency solved_puzzle = Ok true.
Proof. vm_compute. repeat split. Qed.

(** C8.  [check_candidate_consistency] always returns a boolean.  It returns
    [true] exactly when in each of the 27 units every digit from 1 to 9 is
    the solved value of a cell of the unit or a candidate of an Unsolved cell
    of the unit.  So it returns [false] when 7 is neither solved in row R1 nor
    a candidate of an Unsolved cell of R1. *)
Theorem check_candidate_consistency_spec (p : puzzle) :
  (exists b, check_candidate_consistency p = Ok b) /\
  (check_candidate_consistency p = Ok true <->
   forall ks, In ks all_units -> unit_covered p ks) /\
  (~ held_in p (row_keys 1) 7 -> ~ pencilled_in p (row_keys 1) 7 ->
   check_candidate_consistency p = Ok false).
Proof.
  rewrite check_candidate_consistency_eq.
  set (check := fun ks =>
                  coverage_scan (select p ks) (solved_digits_of (select p ks))
                    (range 1 10)).
  assert (Hiff : forallb check all_units = true <->
                 forall ks, In ks all_units -> unit_covered p ks).
  { rewrite forallb_forall. pose proof all_units_NoDup as Hnd.
    rewrite Forall_forall in Hnd.
    split; intros H ks Hks.
    - apply coverage_unit_iff; [auto | exact (H ks Hks)].
    - unfold check. apply coverage_unit_iff; auto. }
  split; [eauto|]. split.
  - rewrite <- Hiff. split; [apply Ok_inj | intros ->; reflexivity].
  - intros Hh Hp. destruct (forallb check all_units); [|reflexivity].
    exfalso. assert (Hc : unit_covered p (row_keys 1)).
    { apply (proj1 Hiff eq_refl). left. reflexivity. }
    destruct (Hc 7); [lia | contradiction | contradiction].
Qed.

Lemma check_candidate_consistency_spec_witness :
  check_candidate_consistency no_seven_in_R1 = Ok false.
Proof.
  apply (proj2 (proj2 (check_candidate_consistency_spec no_seven_in_R1))).
  - intros [k [c [Hk [Hg Hv]]]]. simpl in Hk.
    repeat (destruct Hk as [<-|Hk];
            [vm_compute in Hg; injection Hg as <-; discriminate Hv|]).
    contradiction.
  - intros [k [c [Hk [Hg [Hv Hd]]]]]. simpl in Hk.
    repeat (destruct Hk as [<-|Hk];
            [vm_compute in Hg; injection Hg as <-; simpl in Hd;
             repeat (destruct Hd as [Hd|Hd]; try discriminate Hd);
             contradiction|]).
    contradiction.
Defined.

(* ================================================================== *)
(** * Further properties *)

(* ------------------------------------------------------------------ *)
(** ** Narrowing *)

Lemma cell_narrows_refl c : cell_narrows c c.
Proof.
  unfold cell_narrows. destruct (value c) eqn:E; [reflexivity|].
  repeat split; auto using incl_refl.
Qed.

Lemma cell_narrows_trans a b c :
  cell_narrows a b -> cell_narrows b c -> cell_narrows a c.
Proof.
  unfold cell_narrows. destruct (value a) eqn:Ea.
  - intros ->. now rewrite Ea.
  - intros [Hi1 [Hn1 Hv1]]. destruct (value b) eqn:Eb.
    + intros ->. rewrite Eb. auto.
    + intros [Hi2 [Hn2 Hv2]]. split; [eauto using incl_tran|].
      split; [auto|]. destruct (value c); [|exact I].
      destruct Hv2 as [Hd Hc]. auto.
Qed.

Lemma narrows_refl p : narrows p p.
Proof. apply pointwise_refl, cell_narrows_refl. Qed.

Lemma narrows_trans p1 p2 p3 : narrows p1 p2 -> narrows p2 p3 -> narrows p1 p3.
Proof. apply pointwise_trans, cell_narrows_trans. Qed.

Lemma narrows_strike p k c d :
  get p k = Some c -> value c = None ->
  narrows p (update p k (set_candidates (remove_first d (candidates c)))).
Proof.
  intros Hg Hv. eapply pointwise_update; eauto using cell_narrows_refl.
  unfold cell_narrows. rewrite Hv. simpl. rewrite Hv. repeat split.
  - intros x. apply remove_first_incl.
  - intros H. now apply remove_first_NoDup.
Qed.

Lemma narrows_solve p k c d :
  get p k = Some c -> value c = None -> In d (candidates c) ->
  narrows p (update p k (fun c => set_candidates [] (set_value (Some d) c))).
Proof.
  intros Hg Hv Hd. eapply pointwise_update; eauto using cell_narrows_refl.
  unfold cell_narrows. rewrite Hv. simpl. repeat split; auto.
  - intros x [].
  - intros _. constructor.
Qed.

Lemma eliminate_from_peer_narrows self cell_ref digit :
  (forall p k d, post (narrows p) (self p k d)) ->
  forall peer p,
    post (narrows p) (eliminate_from_peer self cell_ref digit peer p).
Proof.
  intros Hself peer p. unfold eliminate_from_peer.
  destruct (String.eqb peer cell_ref); [apply narrows_refl|].
  destruct (get p peer) as [c|] eqn:Hg; [|apply narrows_refl].
  destruct (is_none (value c) && mem digit (candidates c))%bool eqn:Hc;
    [|apply narrows_refl].
  apply andb_true_iff in Hc. destruct Hc as [Hv _].
  assert (Hn : value c = None) by (destruct (value c); [discriminate|auto]).
  pose proof (narrows_strike p peer c digit Hg Hn) as He.
  cbv zeta.
  destruct (remove_first digit (candidates c)) as [|x [|y l]]; try exact He.
  eapply post_impl; [|apply Hself]. intros s. now apply narrows_trans.
Qed.

Lemma assign_digit_narrows fuel :
  forall p k d, post (narrows p) (assign_digit fuel p k d).
Proof.
  induction fuel as [|fuel IH]; intros p k d; [exact I|].
  rewrite assign_digit_unfold.
  destruct (get p k) as [c|] eqn:Hg; [|apply narrows_refl].
  destruct (is_none (value c)) eqn:Hv; cbn [negb]; [|apply narrows_refl].
  destruct (mem d (candidates c)) eqn:Hm; cbn [negb]; [|apply narrows_refl].
  assert (Hn : value c = None) by (destruct (value c); [discriminate|auto]).
  apply mem_In in Hm.
  pose proof (narrows_solve p k c d Hg Hn Hm) as He.
  destruct (get_units_for_cell k) as [u|e]; [|exact He].
  eapply post_impl; [intros s; apply narrows_trans; exact He|].
  apply for_each_post; [apply narrows_refl | apply narrows_trans |].
  intros members s _.
  apply for_each_post; [apply narrows_refl | apply narrows_trans |].
  intros peer s' _. now apply eliminate_from_peer_narrows.
Qed.

Lemma eliminate_digit_ms_narrows fuel p k d :
  post (narrows p) (SudokuMs.eliminate_digit fuel p k d).
Proof.
  unfold SudokuMs.eliminate_digit.
  destruct (get p k) as [c|] eqn:Hg; [|apply narrows_refl].
  destruct (value c) eqn:Hv; cbn [is_none negb]; [apply narrows_refl|].
  destruct (mem d (candidates c)); [|apply narrows_refl].
  cbv zeta. pose proof (narrows_strike p k c d Hg Hv) as He.
  destruct (remove_first d (candidates c)) as [|x [|y l]]; try exact He.
  eapply post_impl; [|apply assign_digit_narrows].
  intros s. now apply narrows_trans.
Qed.

Lemma eliminate_digit_py_narrows p k d :
  post (narrows p) (SudokuPy.eliminate_digit p k d).
Proof.
  unfold SudokuPy.eliminate_digit.
  destruct (get p k) as [c|] eqn:Hg; [|apply narrows_refl].
  destruct (value c) eqn:Hv; cbn [is_none negb]; [apply narrows_refl|].
  destruct (mem d (candidates c)); [|apply narrows_refl].
  exact (narrows_strike p k c d Hg Hv).
Qed.

Lemma scan_step_narrows depth k s :
  post (fun s' => narrows (fst s) (fst s')) (scan_step depth k s).
Proof.
  destruct s as [p progress]. unfold scan_step.
  destruct (get p k) as [c|]; [|apply narrows_refl].
  destruct (value c); [apply narrows_refl|].
  destruct (candidates c) as [|x [|y l]]; try apply narrows_refl.
  pose proof (assign_digit_narrows depth p k x) as H.
  destruct (assign_digit depth p k x); simpl in *; auto.
Qed.

Lemma scan_and_assign_narrows sweeps depth :
  forall p, post (narrows p) (scan_and_assign sweeps depth p).
Proof.
  induction sweeps as [|sweeps IH]; intros p; [exact I|]. simpl.
  assert (H : post (fun s' => narrows p (fst s'))
                (for_each (scan_step depth) (keys p) (p, false))).
  { apply (for_each_post (scan_step depth)
             (fun a b => narrows (fst a) (fst b))).
    - intros a. apply narrows_refl.
    - intros a b c. apply narrows_trans.
    - intros k t _. apply scan_step_narrows. }
  destruct (for_each (scan_step depth) (keys p) (p, false))
    as [[p' progress]|e [p' progress]|]; simpl in *; auto.
  destruct progress; [|exact H].
  eapply post_impl; [|apply IH]. intros s. now apply narrows_trans.
Qed.

(** What [narrows] says about the cell under one key. *)
Lemma narrows_cell p p' k c :
  narrows p p' -> get p k = Some c ->
  exists c', get p' k = Some c' /\ cell_narrows c c'.
Proof. apply pointwise_get. Qed.

Lemma narrows_cell_inv p p' k c' :
  narrows p p' -> get p' k = Some c' ->
  exists c, get p k = Some c /\ cell_narrows c c'.
Proof. apply pointwise_get_inv. Qed.

Lemma narrows_nodup p p' :
  narrows p p' -> nodup_candidates p -> nodup_candidates p'.
Proof.
  intros Hn Hp k c' Hg.
  destruct (narrows_cell_inv _ _ _ _ Hn Hg) as [c [Hc Hr]].
  unfold cell_narrows in Hr. destruct (value c).
  - subst c'. eauto.
  - destruct Hr as [_ [H _]]. eauto.
Qed.

(* ------------------------------------------------------------------ *)
(** ** Propagation to the peers *)

Lemma for_each_app {A St : Type} (body : A -> St -> result St) l1 l2 s :
  for_each body (l1 ++ l2) s =
  match for_each body l1 s with
  | Done s' => for_each body l2 s'
  | r => r
  end.
Proof.
  revert s. induction l1 as [|x l1 IH]; intros s; simpl; [reflexivity|].
  destruct (body x s); auto.
Qed.

(** The two nested loops of [assign_digit] visit the members of the three
    units one after the other. *)
Lemma for_each_concat {A St : Type} (body : A -> St -> result St) ls s :
  for_each (fun l => for_each body l) ls s = for_each body (List.concat ls) s.
Proof.
  revert s. induction ls as [|l ls IH]; intros s; simpl; [reflexivity|].
  rewrite for_each_app. destruct (for_each body l s); auto.
Qed.

Lemma cleared_refl p : cleared p p.
Proof. intros x cx cx' v u y cy Hx Hv Hx' Hv'. congruence. Qed.

Lemma cleared_trans a b c :
  narrows a b -> narrows b c -> cleared a b -> cleared b c -> cleared a c.
Proof.
  intros Hab Hbc Cab Cbc x cx cx' v u y cy Hx Hv Hx' Hv' Hu Hy Hne Hcy Hvy.
  destruct (narrows_cell _ _ _ _ Hab Hx) as [bx [Hbx _]].
  destruct (value bx) as [w|] eqn:Hw.
  - destruct (narrows_cell _ _ _ _ Hbc Hbx) as [cx2 [Hcx2 Hr]].
    unfold cell_narrows in Hr. rewrite Hw in Hr. subst cx2.
    assert (cx' = bx) by congruence. subst cx'.
    assert (w = v) by congruence. subst w.
    destruct (narrows_cell_inv _ _ _ _ Hbc Hcy) as [by_ [Hby Hry]].
    unfold cell_narrows in Hry. destruct (value by_) eqn:Hvb.
    + subst cy. congruence.
    + destruct Hry as [Hincl _]. intros Hin.
      apply (Cab x cx bx v u y by_); auto.
  - eapply Cbc; eauto.
Qed.

Lemma cleared_strike p k c l :
  get p k = Some c -> value c = None ->
  cleared p (update p k (set_candidates l)).
Proof.
  intros Hg Hc x cx cx' v u y cy Hx Hv Hx' Hv'. exfalso.
  destruct (string_dec k x) as [->|Hne].
  - rewrite get_update_same, Hx in Hx'. simpl in Hx'.
    injection Hx' as <-. simpl in Hv'. congruence.
  - rewrite get_update_other in Hx' by assumption. congruence.
Qed.

(** A digit struck from an Unsolved cell stays away. *)
Lemma absent_persists a b y d :
  narrows a b ->
  (forall cy, get a y = Some cy -> value cy = None -> ~ In d (candidates cy)) ->
  forall cy, get b y = Some cy -> value cy = None -> ~ In d (candidates cy).
Proof.
  intros Hn Ha cy Hg Hv Hin.
  destruct (narrows_cell_inv _ _ _ _ Hn Hg) as [ay [Hay Hr]].
  unfold cell_narrows in Hr. destruct (value ay) eqn:Hva.
  - subst cy. congruence.
  - destruct Hr as [Hincl _]. apply (Ha ay Hay Hva). auto.
Qed.

Section Cascade.
Variables (fuel : nat) (k : string) (d : Z).
Hypothesis assign_cleared :
  forall p k d p',
    nodup_candidates p -> assign_digit fuel p k d = Done p' -> cleared p p'.

Lemma peer_step q s s1 :
  nodup_candidates s ->
  eliminate_from_peer (assign_digit fuel) k d q s = Done s1 ->
  narrows s s1 /\ cleared s s1 /\
  (q <> k ->
   forall cy, get s1 q = Some cy -> value cy = None -> ~ In d (candidates cy)).
Proof.
  intros Hnd. unfold eliminate_from_peer.
  destruct (String.eqb q k) eqn:E.
  { apply String.eqb_eq in E. intros [= <-].
    split; [apply narrows_refl|]. split; [apply cleared_refl|]. contradiction. }
  destruct (get s q) as [pc|] eqn:Hg; [|discriminate].
  destruct (is_none (value pc) && mem d (candidates pc))%bool eqn:Hc.
  2:{ intros [= <-]. split; [apply narrows_refl|]. split; [apply cleared_refl|].
      intros _ cy Hcy Hv. assert (cy = pc) by congruence. subst cy.
      rewrite Hv in Hc. simpl in Hc. now apply mem_false. }
  apply andb_true_iff in Hc. destruct Hc as [Hv _].
  assert (Hn : value pc = None) by (destruct (value pc); [discriminate|auto]).
  pose proof (narrows_strike s q pc d Hg Hn) as Hs0.
  pose proof (cleared_strike s q pc (remove_first d (candidates pc)) Hg Hn)
    as Hc0.
  assert (Habs : forall cy,
             get (update s q (set_candidates (remove_first d (candidates pc))))
                 q = Some cy ->
             value cy = None -> ~ In d (candidates cy)).
  { intros cy Hcy _. rewrite get_update_same, Hg in Hcy. simpl in Hcy.
    injection Hcy as <-. simpl.
    apply (remove_first_NoDup d _ (Hnd q pc Hg)). }
  cbv zeta.
  destruct (remove_first d (candidates pc)) as [|x [|y l]] eqn:Hrm;
    try (intros [= <-]; auto).
  intros Hrun. set (s0 := update s q (set_candidates [x])) in *.
  pose proof (assign_digit_narrows fuel s0 q x) as Hn1. rewrite Hrun in Hn1.
  simpl in Hn1.
  assert (Hc1 := assign_cleared s0 q x s1 (narrows_nodup _ _ Hs0 Hnd) Hrun).
  split; [eauto using narrows_trans|].
  split; [eauto using cleared_trans|].
  intros _. eapply absent_persists; eauto.
Qed.

Lemma peers_loop L :
  forall done s s',
    nodup_candidates s ->
    (forall y cy,
       In y done -> y <> k -> get s y = Some cy -> value cy = None ->
       ~ In d (candidates cy)) ->
    for_each (eliminate_from_peer (assign_digit fuel) k d) L s = Done s' ->
    narrows s s' /\ cleared s s' /\
    (forall y cy,
       In y (done ++ L) -> y <> k -> get s' y = Some cy -> value cy = None ->
       ~ In d (candidates cy)).
Proof.
  induction L as [|q L IH]; intros done s s' Hnd Hdone Hrun.
  - injection Hrun as <-. rewrite app_nil_r.
    split; [apply narrows_refl|]. split; [apply cleared_refl|]. exact Hdone.
  - simpl in Hrun.
    destruct (eliminate_from_peer (assign_digit fuel) k d q s) as [s1| |]
      eqn:Hq; try discriminate.
    destruct (peer_step q s s1 Hnd Hq) as [Hn1 [Hc1 Hq1]].
    destruct (IH (done ++ [q])%list s1 s') as [Hn2 [Hc2 Hall]];
      [eauto using narrows_nodup | | exact Hrun |].
    + intros y cy Hy Hne. apply in_app_iff in Hy. destruct Hy as [Hy|[<-|[]]].
      * apply (absent_persists s s1 y d Hn1). intros c0. now apply Hdone.
      * now apply Hq1.
    + split; [eauto using narrows_trans|].
      split; [eauto using cleared_trans|].
      intros y cy Hy. apply Hall. rewrite <- app_assoc. exact Hy.
Qed.
End Cascade.

(** When [assign_digit] returns, every cell it has solved, the target and
    the cells of the cascade, has had its digit struck from the Unsolved
    cells of its units. *)
Lemma assign_digit_cleared fuel :
  forall p k d p',
    nodup_candidates p -> assign_digit fuel p k d = Done p' -> cleared p p'.
Proof.
  induction fuel as [|fuel IH]; intros p k d p' Hnd Hrun; [discriminate|].
  rewrite assign_digit_unfold in Hrun.
  destruct (get p k) as [c|] eqn:Hg; [|discriminate].
  destruct (value c) eqn:Hv; [discriminate|]. cbn [is_none negb] in Hrun.
  destruct (mem d (candidates c)) eqn:Hm; [|discriminate].
  cbn [negb] in Hrun. cbv zeta in Hrun. apply mem_In in Hm.
  pose proof (narrows_solve p k c d Hg Hv Hm) as Hp1.
  set (p1 := update p k _) in *.
  destruct (get_units_for_cell k) as [u|] eqn:Hu; [|discriminate].
  rewrite for_each_concat, units_members in Hrun.
  destruct (peers_loop fuel k d IH (row u ++ col u ++ block u)%list [] p1 p'
              (narrows_nodup _ _ Hp1 Hnd))
    as [Hn [Hc Hall]]; [intros y cy [] | exact Hrun |].
  simpl in Hall.
  intros x cx cx' v u' y cy Hx Hvx Hx' Hv' Hu' Hy Hne Hcy Hvy.
  destruct (string_dec k x) as [<-|Hkx].
  - assert (Hk1 : get p1 k = Some (mkCell (Some d) [])).
    { unfold p1. rewrite get_update_same, Hg. reflexivity. }
    destruct (narrows_cell _ _ _ _ Hn Hk1) as [c1 [Hc1 Hr]].
    unfold cell_narrows in Hr. simpl in Hr. subst c1.
    assert (cx' = mkCell (Some d) []) by congruence. subst cx'.
    simpl in Hv'. injection Hv' as <-.
    assert (u' = u) by congruence. subst u'.
    eapply Hall; eauto.
  - apply (Hc x cx cx' v u' y cy); auto.
    unfold p1. now rewrite get_update_other.
Qed.

(* ------------------------------------------------------------------ *)
(** ** Candidate soundness *)

Lemma peer_sound_step p p' :
  narrows p p' -> cleared p p' -> peer_sound p -> peer_sound p'.
Proof.
  intros Hn Hc Hp x cx' v u y cy' Hx' Hv' Hu Hy Hne Hcy' Hvy'.
  destruct (narrows_cell_inv _ _ _ _ Hn Hx') as [cx [Hx Hrx]].
  destruct (value cx) as [w|] eqn:Hw.
  - unfold cell_narrows in Hrx. rewrite Hw in Hrx. subst cx'.
    destruct (narrows_cell_inv _ _ _ _ Hn Hcy') as [cy [Hcy Hry]].
    unfold cell_narrows in Hry. destruct (value cy) eqn:Hvy.
    + subst cy'. congruence.
    + destruct Hry as [Hincl _]. intros Hin.
      apply (Hp x cx v u y cy); auto; congruence.
  - apply (Hc x cx cx' v u y cy'); auto.
Qed.

Lemma eliminate_digit_ms_cleared fuel p k d p' :
  nodup_candidates p ->
  SudokuMs.eliminate_digit fuel p k d = Done p' -> cleared p p'.
Proof.
  intros Hnd. unfold SudokuMs.eliminate_digit.
  destruct (get p k) as [c|] eqn:Hg; [|discriminate].
  destruct (value c) eqn:Hv; cbn [is_none negb]; [discriminate|].
  destruct (mem d (candidates c)); [|intros [= <-]; apply cleared_refl].
  cbv zeta.
  pose proof (narrows_strike p k c d Hg Hv) as Hs.
  pose proof (cleared_strike p k c (remove_first d (candidates c)) Hg Hv) as Hc.
  destruct (remove_first d (candidates c)) as [|x [|y l]];
    try (intros [= <-]; exact Hc).
  intros Hrun. set (p0 := update p k (set_candidates [x])) in *.
  pose proof (assign_digit_narrows fuel p0 k x) as Hn. rewrite Hrun in Hn.
  eapply cleared_trans; eauto.
  eapply assign_digit_cleared; eauto using narrows_nodup.
Qed.

Lemma eliminate_digit_py_cleared p k d p' :
  SudokuPy.eliminate_digit p k d = Done p' -> cleared p p'.
Proof.
  unfold SudokuPy.eliminate_digit.
  destruct (get p k) as [c|] eqn:Hg; [|discriminate].
  destruct (value c) eqn:Hv; cbn [is_none negb]; [discriminate|].
  destruct (mem d (candidates c)); intros [= <-];
    [now apply (cleared_strike p k c) | apply cleared_refl].
Qed.

Lemma sweep_cleared depth ks :
  forall p b p' b',
    nodup_candidates p ->
    for_each (scan_step depth) ks (p, b) = Done (p', b') ->
    narrows p p' /\ cleared p p'.
Proof.
  induction ks as [|k ks IH]; intros p b p' b' Hnd Hrun.
  - injection Hrun as <- <-. split; [apply narrows_refl | apply cleared_refl].
  - cbn [for_each] in Hrun.
    assert (Hstep : forall p1 b1,
               scan_step depth k (p, b) = Done (p1, b1) ->
               narrows p p1 /\ cleared p p1).
    { intros p1 b1. unfold scan_step.
      destruct (get p k) as [c|];
        [|intros [= <- <-]; split; [apply narrows_refl | apply cleared_refl]].
      destruct (value c);
        [intros [= <- <-]; split; [apply narrows_refl | apply cleared_refl]|].
      destruct (candidates c) as [|x [|y l]];
        try (intros [= <- <-]; split; [apply narrows_refl | apply cleared_refl]).
      pose proof (assign_digit_narrows depth p k x) as Hn.
      destruct (assign_digit depth p k x) as [q| |] eqn:Hq; try discriminate.
      intros [= <- <-]. split; [exact Hn|].
      eapply assign_digit_cleared; eauto. }
    destruct (scan_step depth k (p, b)) as [[p1 b1]| |]; try discriminate.
    destruct (Hstep p1 b1 eq_refl) as [Hn1 Hc1].
    destruct (IH p1 b1 p' b' (narrows_nodup _ _ Hn1 Hnd) Hrun) as [Hn2 Hc2].
    split; [eauto using narrows_trans | eauto using cleared_trans].
Qed.

Lemma scan_and_assign_cleared sweeps depth :
  forall p p',
    nodup_candidates p ->
    scan_and_assign sweeps depth p = Done p' -> cleared p p'.
Proof.
  induction sweeps as [|sweeps IH]; intros p p' Hnd; [discriminate|]. simpl.
  destruct (for_each (scan_step depth) (keys p) (p, false))
    as [[p1 progress]|e [p1 progress]|] eqn:Hsweep; try discriminate.
  destruct (sweep_cleared depth (keys p) p false p1 progress Hnd Hsweep)
    as [Hn1 Hc1].
  destruct progress; [|intros [= <-]; exact Hc1].
  intros Hrun.
  pose proof (scan_and_assign_narrows sweeps depth p1) as Hn2.
  rewrite Hrun in Hn2.
  eapply cleared_trans; eauto. eapply IH; eauto using narrows_nodup.
Qed.

(** The units of the 81 cells: accepted, and symmetric. *)
Lemma grid_keys_units k :
  In k grid_keys -> exists u, get_units_for_cell k = Ok u.
Proof.
  assert (H : forallb
                (fun k => match get_units_for_cell k with
                          | Ok _ => true
                          | Err _ => false
                          end) grid_keys = true) by (vm_compute; reflexivity).
  rewrite forallb_forall in H. intros Hk. specialize (H k Hk).
  destruct (get_units_for_cell k); [eauto | discriminate].
Qed.

Lemma members_symmetric x y :
  In x grid_keys -> In y grid_keys ->
  In y (members_of x) -> In x (members_of y).
Proof.
  assert (H : forallb
                (fun x =>
                   forallb
                     (fun y =>
                        implb (existsb (String.eqb y) (members_of x))
                              (existsb (String.eqb x) (members_of y)))
                     grid_keys)
                grid_keys = true) by (vm_compute; reflexivity).
  rewrite forallb_forall in H. intros Hx Hy Hin.
  specialize (H x Hx). rewrite forallb_forall in H. specialize (H y Hy).
  assert (Hl : existsb (String.eqb y) (members_of x) = true).
  { apply existsb_exists. exists y. split; [assumption|apply String.eqb_refl]. }
  rewrite Hl in H. simpl in H. apply existsb_exists in H.
  destruct H as [z [Hz E]]. apply String.eqb_eq in E. now subst.
Qed.

Lemma on_grid_sound p :
  on_grid p -> (peer_sound p <-> candidates_sound p).
Proof.
  intros Hgrid.
  assert (Hin : forall k c, get p k = Some c -> In k grid_keys).
  { intros k c Hg. apply Hgrid. eapply get_some_in_keys; eauto. }
  split.
  - intros H y cy u x cx v Hy Hvy Hu Hx Hcx Hvx.
    destruct (string_dec y x) as [->|Hne]; [congruence|].
    assert (Hm : In y (members_of x)).
    { apply members_symmetric; eauto. unfold members_of. now rewrite Hu. }
    unfold members_of in Hm.
    destruct (get_units_for_cell x) as [ux|] eqn:Hux; [|destruct Hm].
    apply (H x cx v ux y cy); auto.
  - intros H x cx v u y cy Hx Hvx Hu Hy Hne Hcy Hvy.
    assert (Hm : In x (members_of y)).
    { apply members_symmetric; eauto. unfold members_of. now rewrite Hu. }
    unfold members_of in Hm.
    destruct (get_units_for_cell y) as [uy|] eqn:Huy; [|destruct Hm].
    apply (H y cy uy x cx v); auto.
Qed.

Lemma narrows_on_grid p p' : narrows p p' -> on_grid p -> on_grid p'.
Proof.
  intros Hn Hp k. rewrite (pointwise_keys _ _ _ Hn). apply Hp.
Qed.

(* ------------------------------------------------------------------ *)
(** ** What [compute_candidates] writes *)

(** The cells of the puzzle that [compute_candidates] returns. *)
Lemma compute_candidates_cells p p' :
  compute_candidates p = Done p' ->
  forall k c,
    get p' k = Some c ->
    match value c with
    | Some _ => candidates c = []
    | None =>
        exists u used,
          get_units_for_cell k = Ok u /\
          collect_units p' (units_values u) [] = Ok used /\
          candidates c = filter (fun d => negb (mem d used)) (range 1 10)
    end.
Proof.
  intros Hrun k c Hg.
  pose proof (compute_candidates_loop_refreshes (keys p) p) as Hre.
  unfold compute_candidates in Hrun. rewrite Hrun in Hre. simpl in Hre.
  pose proof (pointwise_keys _ _ _ Hre) as Hkeys.
  pose proof (refreshes_same_values _ _ Hre) as Hsv.
  destruct (compute_candidates_loop (keys p) p p' Hrun (fun k H => H))
    as [Hin _].
  destruct (Hin k) as [c' [Hc' Hn]].
  { rewrite <- Hkeys. eapply get_some_in_keys; eauto. }
  rewrite <- (new_candidates_ext p p' k Hsv) in Hn.
  unfold new_candidates in Hn. rewrite Hg in Hn.
  assert (c' = c) by congruence. subst c'.
  destruct (value c); [congruence|].
  destruct (get_units_for_cell k) as [u|]; [|discriminate].
  destruct (collect_units p' (units_values u) []) as [used|] eqn:Hused;
    [|discriminate].
  apply Ok_inj in Hn. exists u, used. auto.
Qed.

Lemma range_sorted lo n :
  StronglySorted Z.lt (range lo (lo + Z.of_nat n)).
Proof.
  revert lo. induction n as [|n IH]; intros lo.
  - unfold range. replace (lo + Z.of_nat 0 - lo) with 0 by lia. constructor.
  - assert (E : range lo (lo + Z.of_nat (S n)) =
                lo :: range (lo + 1) (lo + 1 + Z.of_nat n)).
    { unfold range.
      replace (lo + Z.of_nat (S n) - lo) with (Z.of_nat (S n)) by lia.
      replace (lo + 1 + Z.of_nat n - (lo + 1)) with (Z.of_nat n) by lia.
      rewrite !Nat2Z.id. simpl. f_equal; [lia|].
      rewrite <- seq_shift, map_map. apply map_ext. intros i. lia. }
    rewrite E. constructor; [apply IH|].
    apply Forall_forall. intros x Hx. apply range_In in Hx. lia.
Qed.

Lemma filter_sorted (f : Z -> bool) l :
  StronglySorted Z.lt l -> StronglySorted Z.lt (filter f l).
Proof.
  induction 1 as [|x l Hl IH Hx]; simpl; [constructor|].
  destruct (f x); [|assumption]. constructor; [assumption|].
  rewrite Forall_forall in *. intros y Hy. apply filter_In in Hy. now apply Hx.
Qed.

Lemma sorted_NoDup l : StronglySorted Z.lt l -> NoDup l.
Proof.
  induction 1 as [|x l Hl IH Hx]; constructor; [|assumption].
  intros Hin. rewrite Forall_forall in Hx. specialize (Hx x Hin). lia.
Qed.

Lemma compute_candidates_sorted p p' k c :
  compute_candidates p = Done p' -> get p' k = Some c ->
  StronglySorted Z.lt (candidates c).
Proof.
  intros Hrun Hg. pose proof (compute_candidates_cells p p' Hrun k c Hg) as H.
  destruct (value c).
  - rewrite H. constructor.
  - destruct H as [u [used [_ [_ ->]]]]. apply filter_sorted.
    apply (range_sorted 1 9).
Qed.

Lemma compute_candidates_nodup p p' :
  compute_candidates p = Done p' -> nodup_candidates p'.
Proof.
  intros Hrun k c Hg. eapply sorted_NoDup, compute_candidates_sorted; eauto.
Qed.

Lemma compute_candidates_candidates_sound p p' :
  compute_candidates p = Done p' -> candidates_sound p'.
Proof.
  intros Hrun y cy u x cx v Hy Hvy Hu Hx Hcx Hvx.
  pose proof (compute_candidates_cells p p' Hrun y cy Hy) as H.
  rewrite Hvy in H. destruct H as [u' [used [Hu' [Hused ->]]]].
  assert (u' = u) by congruence. subst u'.
  rewrite filter_In, negb_true_iff, mem_false.
  intros [_ Hnot]. apply Hnot.
  apply (collect_units_In _ _ _ _ Hused v). right.
  rewrite units_members. exists x, cx. auto.
Qed.

(** When the inner loops return, all the members were keys. *)
Lemma collect_unit_present p members :
  forall acc used,
    collect_unit p members acc = Ok used ->
    forall peer, In peer members -> In peer (keys p).
Proof.
  induction members as [|y l IH]; intros acc used H peer Hin; [destruct Hin|].
  simpl in H. destruct (get p y) as [pc|] eqn:Hg; [|discriminate].
  destruct Hin as [<-|Hin]; [eapply get_some_in_keys; eauto|].
  destruct (value pc); eapply IH; eauto.
Qed.

Lemma collect_units_present p us :
  forall acc used,
    collect_units p us acc = Ok used ->
    forall peer, In peer (List.concat us) -> In peer (keys p).
Proof.
  induction us as [|members us IH]; intros acc used H peer Hin;
    [destruct Hin|].
  simpl in H, Hin.
  destruct (collect_unit p members acc) as [acc'|] eqn:Hm; [|discriminate].
  apply in_app_iff in Hin. destruct Hin as [Hin|Hin].
  - eapply collect_unit_present; eauto.
  - eapply IH; eauto.
Qed.

(* ------------------------------------------------------------------ *)
(** ** Sweeps that find nothing *)

Lemma scan_step_flag depth k p p' b' :
  scan_step depth k (p, true) = Done (p', b') -> b' = true.
Proof.
  unfold scan_step. destruct (get p k) as [c|]; [|congruence].
  destruct (value c); [congruence|].
  destruct (candidates c) as [|x [|y l]]; try congruence.
  destruct (assign_digit depth p k x); congruence.
Qed.

Lemma sweep_flag depth ks :
  forall p p' b',
    for_each (scan_step depth) ks (p, true) = Done (p', b') -> b' = true.
Proof.
  induction ks as [|k ks IH]; intros p p' b' H;
    [cbn [for_each] in H; congruence|].
  cbn [for_each] in H.
  destruct (scan_step depth k (p, true)) as [[p1 b1]| |] eqn:Hs;
    try discriminate.
  apply scan_step_flag in Hs. subst b1. eauto.
Qed.

(** A sweep that ends without progress has changed nothing and has met no
    naked single. *)
Lemma sweep_quiet depth ks :
  forall p p',
    for_each (scan_step depth) ks (p, false) = Done (p', false) ->
    p' = p /\
    forall k c, In k ks -> get p k = Some c -> ~ naked_single c.
Proof.
  induction ks as [|k ks IH]; intros p p' H.
  - injection H as <-. split; [reflexivity | intros k c []].
  - cbn [for_each] in H.
    destruct (scan_step depth k (p, false)) as [[p1 b1]| |] eqn:Hs;
      try discriminate.
    destruct b1.
    { apply sweep_flag in H. discriminate. }
    assert (Hk : p1 = p /\ forall c, get p k = Some c -> ~ naked_single c).
    { revert Hs. unfold scan_step, naked_single.
      destruct (get p k) as [c|].
      - destruct (value c) eqn:Hv.
        + intros [= <-]. split; [reflexivity|].
          intros c0 [= <-] [Hn _]. congruence.
        + destruct (candidates c) as [|x [|y l]] eqn:Hc.
          * intros [= <-]. split; [reflexivity|].
            intros c0 [= <-] [_ [z Hz]]. congruence.
          * destruct (assign_digit depth p k x); discriminate.
          * intros [= <-]. split; [reflexivity|].
            intros c0 [= <-] [_ [z Hz]]. congruence.
      - intros [= <-]. split; [reflexivity | discriminate]. }
    destruct Hk as [-> Hk]. destruct (IH p p' H) as [-> Hrest].
    split; [reflexivity|]. intros k' c [<-|Hin]; eauto.
Qed.

Lemma sweep_nothing depth ks p :
  (forall k c, In k ks -> get p k = Some c -> ~ naked_single c) ->
  for_each (scan_step depth) ks (p, false) = Done (p, false).
Proof.
  intros H. apply for_each_fixed. intros k Hk. unfold scan_step.
  destruct (get p k) as [c|] eqn:Hg; [|reflexivity].
  destruct (value c) eqn:Hv; [reflexivity|].
  destruct (candidates c) as [|x [|y l]] eqn:Hc; try reflexivity.
  exfalso. apply (H k c Hk Hg). split; eauto.
Qed.

(* ------------------------------------------------------------------ *)
(** ** Facts about the samples *)

Lemma on_grid_check p :
  forallb (fun k => existsb (String.eqb k) grid_keys) (keys p) = true ->
  on_grid p.
Proof.
  rewrite forallb_forall. intros H k Hk. specialize (H k Hk).
  apply existsb_exists in H. destruct H as [x [Hx E]].
  apply String.eqb_eq in E. now subst.
Qed.

Lemma sample_candidates_run :
  compute_candidates sample_puzzle = Done sample_candidates.
Proof. vm_compute. reflexivity. Qed.

Lemma sample_candidates_on_grid : on_grid sample_candidates.
Proof. apply on_grid_check. vm_compute. reflexivity. Qed.

Lemma after_R5C5_run :
  assign_digit 81 sample_candidates "R5C5" 5 = Done after_R5C5.
Proof. vm_compute. reflexivity. Qed.

(* ================================================================== *)
(** * Further theorems *)

(** X1.  [assign_digit], both versions of [eliminate_digit] and
    [scan_and_assign] only narrow the puzzle, whether they return or raise:
    keys and their order stay; a cell that was Solved is left exactly as it
    was; an Unsolved cell loses candidates at most, and if it gets solved its
    value is one of the candidates it had and its candidate list is emptied. *)
Theorem engine_narrows (p : puzzle) :
  (forall fuel k d, post (narrows p) (assign_digit fuel p k d)) /\
  (forall fuel k d, post (narrows p) (SudokuMs.eliminate_digit fuel p k d)) /\
  (forall k d, post (narrows p) (SudokuPy.eliminate_digit p k d)) /\
  (forall sweeps depth, post (narrows p) (scan_and_assign sweeps depth p)) /\
  (forall p',
     narrows p p' ->
     keys p' = keys p /\
     forall k c,
       get p k = Some c ->
       exists c',
         get p' k = Some c' /\
         (value c <> None -> c' = c) /\
         (value c = None ->
          incl (candidates c') (candidates c) /\
          forall d, value c' = Some d ->
                    In d (candidates c) /\ candidates c' = [])).
Proof.
  split; [intros; apply assign_digit_narrows|].
  split; [intros; apply eliminate_digit_ms_narrows|].
  split; [intros; apply eliminate_digit_py_narrows|].
  split; [intros; apply scan_and_assign_narrows|].
  intros p' Hn. split; [exact (pointwise_keys _ _ _ Hn)|].
  intros k c Hg. destruct (narrows_cell _ _ _ _ Hn Hg) as [c' [Hc' Hr]].
  exists c'. split; [exact Hc'|]. unfold cell_narrows in Hr.
  destruct (value c) eqn:Hv.
  - split; [auto | discriminate].
  - destruct Hr as [Hincl [_ Hval]]. split; [congruence|].
    intros _. split; [exact Hincl|]. intros d Hd. now rewrite Hd in Hval.
Qed.

(** X2.  When [assign_digit] returns, the target cell is Solved with the
    digit and has no candidates; a further [assign_digit] on that cell, with
    any digit, raises [ValueError] and changes nothing. *)
Theorem assign_digit_solves_target (fuel : nat) (p : puzzle) (k : string)
    (d : Z) (p' : puzzle) :
  assign_digit fuel p k d = Done p' ->
  get p' k = Some (mkCell (Some d) []) /\
  forall fuel' d', assign_digit (S fuel') p' k d' = Raised ValueError p'.
Proof.
  destruct fuel as [|fuel]; [discriminate|]. intros Hrun.
  assert (Hsolved : get p' k = Some (mkCell (Some d) [])).
  { pose proof Hrun as Hrun'. rewrite assign_digit_unfold in Hrun'.
    destruct (get p k) as [c|] eqn:Hg; [|discriminate].
    destruct (value c) eqn:Hv; [discriminate|]. cbn [is_none negb] in Hrun'.
    destruct (mem d (candidates c)) eqn:Hm; [|discriminate].
    pose proof (assign_digit_after_solve fuel p k d c Hg Hv Hm) as Hpost.
    rewrite Hrun in Hpost. simpl in Hpost.
    destruct (pointwise_get _ _ _ k (mkCell (Some d) []) Hpost)
      as [c' [Hc' Hr]].
    - rewrite get_update_same, Hg. reflexivity.
    - unfold cell_step in Hr. simpl in Hr. now subst c'. }
  split; [exact Hsolved|]. intros fuel' d'.
  rewrite assign_digit_unfold, Hsolved. reflexivity.
Qed.

Lemma assign_digit_solves_target_witness :
  get after_R5C5 "R5C5" = Some (mkCell (Some 5) []) /\
  assign_digit 81 after_R5C5 "R5C5" 5 = Raised ValueError after_R5C5.
Proof.
  destruct (assign_digit_solves_target 81 sample_candidates "R5C5" 5
              after_R5C5 after_R5C5_run) as [H1 H2].
  split; [exact H1 | exact (H2 80%nat 5)].
Defined.



(** X4.  [assign_digit] does not undo its assignment when it raises during
    the elimination: if the three checks pass and the call ends with an
    exception, the puzzle it leaves has the target cell Solved with the
    digit. *)
Theorem assign_digit_raise_keeps_assignment (fuel : nat) (p : puzzle)
    (k : string) (d : Z) (c : cell) (e : exn) (s : puzzle) :
  get p k = Some c -> value c = None -> In d (candidates c) ->
  assign_digit fuel p k d = Raised e s ->
  get s k = Some (mkCell (Some d) []) /\ narrows p s.
Proof.
  intros Hg Hv Hd Hrun. apply mem_In in Hd.
  destruct fuel as [|fuel]; [discriminate|].
  pose proof (assign_digit_after_solve fuel p k d c Hg Hv Hd) as Hpost.
  pose proof (assign_digit_narrows (S fuel) p k d) as Hn.
  rewrite Hrun in Hpost, Hn. simpl in Hpost, Hn. split; [|exact Hn].
  destruct (pointwise_get _ _ _ k (mkCell (Some d) []) Hpost) as [c' [Hc' Hr]].
  - rewrite get_update_same, Hg. reflexivity.
  - unfold cell_step in Hr. simpl in Hr. now subst c'.
Qed.

Lemma assign_digit_raise_keeps_assignment_witness :
  assign_digit 1 lone_cell "R1C1" 5
  = Raised KeyError [("R1C1", mkCell (Some 5) [])] /\
  get [("R1C1", mkCell (Some 5) [])] "R1C1" = Some (mkCell (Some 5) []).
Proof.
  assert (H : assign_digit 1 lone_cell "R1C1" 5
              = Raised KeyError [("R1C1", mkCell (Some 5) [])])
    by (vm_compute; reflexivity).
  split; [exact H|].
  refine (proj1 (assign_digit_raise_keeps_assignment 1 lone_cell "R1C1" 5
                   (mkCell None [5]) KeyError _ eq_refl eq_refl _ H)).
  simpl. auto.
Defined.

(** X5.  When [assign_digit] returns on a puzzle whose candidate lists hold
    no digit twice, the digit is no longer a candidate of any Unsolved cell
    of the target's row, column and block; the same holds for every cell
    that the cascade has solved, with its own digit and units. *)
Theorem assign_digit_clears_peers (fuel : nat) (p : puzzle) (k : string)
    (d : Z) (p' : puzzle) :
  nodup_candidates p ->
  assign_digit fuel p k d = Done p' ->
  (forall u y cy,
     get_units_for_cell k = Ok u ->
     In y (row u ++ col u ++ block u) -> y <> k ->
     get p' y = Some cy -> value cy = None -> ~ In d (candidates cy)) /\
  cleared p p'.
Proof.
  intros Hnd Hrun. pose proof (assign_digit_cleared fuel p k d p' Hnd Hrun) as Hc.
  split; [|exact Hc]. intros u y cy Hu Hy Hne Hcy Hvy.
  destruct fuel as [|fuel]; [discriminate|].
  pose proof Hrun as Hrun'. rewrite assign_digit_unfold in Hrun'.
  destruct (get p k) as [c|] eqn:Hg; [|discriminate].
  destruct (value c) eqn:Hv; [discriminate|]. cbn [is_none negb] in Hrun'.
  destruct (mem d (candidates c)) eqn:Hm; [|discriminate].
  pose proof (assign_digit_after_solve fuel p k d c Hg Hv Hm) as Hpost.
  rewrite Hrun in Hpost. simpl in Hpost.
  destruct (pointwise_get _ _ _ k (mkCell (Some d) []) Hpost) as [c' [Hc' Hr]].
  { rewrite get_update_same, Hg. reflexivity. }
  unfold cell_step in Hr. simpl in Hr. subst c'.
  apply (Hc k c (mkCell (Some d) []) d u y cy); auto.
Qed.

Lemma assign_digit_clears_peers_witness :
  get open_after_R5C5 "R4C4" = Some (mkCell None [1; 2; 3; 4; 6; 7; 8; 9]) /\
  ~ In 5 [1; 2; 3; 4; 6; 7; 8; 9].
Proof.
  assert (Hcc : compute_candidates blank_puzzle = Done open_grid)
    by (vm_compute; reflexivity).
  assert (Hrun : assign_digit 81 open_grid "R5C5" 5 = Done open_after_R5C5)
    by (vm_compute; reflexivity).
  assert (Hg : get open_after_R5C5 "R4C4"
               = Some (mkCell None [1; 2; 3; 4; 6; 7; 8; 9]))
    by (vm_compute; reflexivity).
  split; [exact Hg|].
  refine (proj1 (assign_digit_clears_peers 81 open_grid "R5C5" 5
                   open_after_R5C5
                   (compute_candidates_nodup _ _ Hcc) Hrun)
            (units_at 5 5) "R4C4" (mkCell None [1; 2; 3; 4; 6; 7; 8; 9])
            eq_refl _ _ Hg eq_refl).
  - vm_compute. auto 30.
  - discriminate.
Defined.


Lemma narrowing_keeps_sound p p' :
  on_grid p -> nodup_candidates p -> candidates_sound p ->
  narrows p p' -> cleared p p' ->
  candidates_sound p' /\ nodup_candidates p' /\ on_grid p'.
Proof.
  intros Hgrid Hnd Hs Hn Hc.
  pose proof (narrows_on_grid _ _ Hn Hgrid) as Hgrid'.
  split; [|split; [eapply narrows_nodup; eauto | exact Hgrid']].
  apply on_grid_sound; [exact Hgrid'|].
  eapply peer_sound_step; eauto. now apply on_grid_sound.
Qed.

(** X6.  Candidate soundness is an invariant of the mutation engine.  On a
    puzzle whose keys are cell identifiers of the grid and whose candidate
    lists hold no digit twice, if no Unsolved cell lists a digit that a
    Solved cell of its row, column or block holds, the same is true of the
    puzzle that [assign_digit], either [eliminate_digit] or
    [scan_and_assign] returns. *)
Theorem engine_keeps_candidates_sound (p : puzzle) :
  on_grid p -> nodup_candidates p -> candidates_sound p ->
  (forall fuel k d p',
     assign_digit fuel p k d = Done p' ->
     candidates_sound p' /\ nodup_candidates p' /\ on_grid p') /\
  (forall fuel k d p',
     SudokuMs.eliminate_digit fuel p k d = Done p' ->
     candidates_sound p' /\ nodup_candidates p' /\ on_grid p') /\
  (forall k d p',
     SudokuPy.eliminate_digit p k d = Done p' ->
     candidates_sound p' /\ nodup_candidates p' /\ on_grid p') /\
  (forall sweeps depth p',
     scan_and_assign sweeps depth p = Done p' ->
     candidates_sound p' /\ nodup_candidates p' /\ on_grid p').
Proof.
  intros Hgrid Hnd Hs. split; [|split; [|split]].
  - intros fuel k d p' Hrun.
    pose proof (assign_digit_narrows fuel p k d) as Hn. rewrite Hrun in Hn.
    apply (narrowing_keeps_sound p p'); auto.
    eapply assign_digit_cleared; eauto.
  - intros fuel k d p' Hrun.
    pose proof (eliminate_digit_ms_narrows fuel p k d) as Hn.
    rewrite Hrun in Hn. apply (narrowing_keeps_sound p p'); auto.
    eapply eliminate_digit_ms_cleared; eauto.
  - intros k d p' Hrun.
    pose proof (eliminate_digit_py_narrows p k d) as Hn.
    rewrite Hrun in Hn. apply (narrowing_keeps_sound p p'); auto.
    eapply eliminate_digit_py_cleared; eauto.
  - intros sweeps depth p' Hrun.
    pose proof (scan_and_assign_narrows sweeps depth p) as Hn.
    rewrite Hrun in Hn. apply (narrowing_keeps_sound p p'); auto.
    eapply scan_and_assign_cleared; eauto.
Qed.

Lemma engine_keeps_candidates_sound_witness :
  candidates_sound sample_candidates /\ candidates_sound after_R5C5.
Proof.
  pose proof (compute_candidates_candidates_sound _ _ sample_candidates_run)
    as Hs.
  split; [exact Hs|].
  exact (proj1 (proj1 (engine_keeps_candidates_sound sample_candidates
                         sample_candidates_on_grid
                         (compute_candidates_nodup _ _ sample_candidates_run)
                         Hs)
                  81%nat "R5C5" 5 after_R5C5 after_R5C5_run)).
Defined.

(** X7.  In the puzzle that [compute_candidates] returns every candidate
    list is strictly increasing, so without repetition, and made of digits
    from 1 to 9. *)
Theorem compute_candidates_ascending (p p' : puzzle) (k : string) (c : cell) :
  compute_candidates p = Done p' ->
  get p' k = Some c ->
  StronglySorted Z.lt (candidates c) /\
  NoDup (candidates c) /\
  forall d, In d (candidates c) -> 1 <= d <= 9.
Proof.
  intros Hrun Hg.
  pose proof (compute_candidates_sorted p p' k c Hrun Hg) as Hsorted.
  split; [exact Hsorted|]. split; [now apply sorted_NoDup|].
  intros d Hd. pose proof (compute_candidates_cells p p' Hrun k c Hg) as H.
  destruct (value c).
  - rewrite H in Hd. destruct Hd.
  - destruct H as [u [used [_ [_ E]]]]. rewrite E in Hd.
    apply filter_In in Hd. destruct Hd as [Hd _]. apply range_In in Hd. lia.
Qed.

Lemma compute_candidates_ascending_witness :
  StronglySorted Z.lt [1; 2; 4] /\ NoDup [1; 2; 4] /\
  forall d, In d [1; 2; 4] -> 1 <= d <= 9.
Proof.
  refine (compute_candidates_ascending sample_puzzle sample_candidates "R1C3"
            (mkCell None [1; 2; 4]) sample_candidates_run _).
  vm_compute. reflexivity.
Defined.

(** X8.  The puzzle that [scan_and_assign] returns has no naked single
    left: no Unsolved cell with exactly one candidate.  Run on it again,
    [scan_and_assign] returns it unchanged after one sweep. *)
Theorem scan_and_assign_fixed_point (sweeps depth : nat) (p p' : puzzle) :
  scan_and_assign sweeps depth p = Done p' ->
  (forall k c, get p' k = Some c -> ~ naked_single c) /\
  (forall sweeps' depth', scan_and_assign (S sweeps') depth' p' = Done p').
Proof.
  revert p. induction sweeps as [|sweeps IH]; intros p; [discriminate|].
  cbn [scan_and_assign].
  destruct (for_each (scan_step depth) (keys p) (p, false))
    as [[p1 progress]|e [p1 progress]|] eqn:Hsweep; try discriminate.
  destruct progress; [apply IH|]. intros [= <-].
  destruct (sweep_quiet depth (keys p) p p1 Hsweep) as [-> Hquiet].
  assert (Hno : forall k c, get p k = Some c -> ~ naked_single c).
  { intros k c Hg. apply (Hquiet k c); [|exact Hg].
    eapply get_some_in_keys; eauto. }
  split; [exact Hno|]. intros sweeps' depth'. cbn [scan_and_assign].
  rewrite sweep_nothing; [reflexivity|]. intros k c _. apply Hno.
Qed.

Lemma scan_and_assign_fixed_point_witness :
  exists p',
    scan_and_assign 52 51 sample_candidates = Done p' /\
    scan_and_assign 1 0 p' = Done p'.
Proof.
  destruct (scan_and_assign_returns 52 51 sample_candidates
              sample_candidates_closed) as [p' Hrun].
  - apply Nat.ltb_lt. vm_compute. reflexivity.
  - apply Nat.leb_le. vm_compute. reflexivity.
  - exists p'. split; [exact Hrun|].
    exact (proj2 (scan_and_assign_fixed_point 52 51 sample_candidates p' Hrun)
             0%nat 0%nat).
Defined.

(** X9.  [compute_candidates] returns exactly when every Unsolved cell has
    a key that [get_units_for_cell] accepts and all members of its three
    units are keys of the puzzle.  The keys of Solved cells are never
    parsed. *)
Theorem compute_candidates_returns_iff (p : puzzle) :
  (exists p', compute_candidates p = Done p') <->
  (forall k c,
     get p k = Some c -> value c = None ->
     exists u,
       get_units_for_cell k = Ok u /\
       forall y, In y (row u ++ col u ++ block u) -> In y (keys p)).
Proof.
  split.
  - intros [p' Hrun] k c Hg Hv. unfold compute_candidates in Hrun.
    destruct (compute_candidates_loop (keys p) p p' Hrun (fun k H => H))
      as [Hin _].
    destruct (Hin k (get_some_in_keys _ _ _ Hg)) as [c' [_ Hn]].
    unfold new_candidates in Hn. rewrite Hg, Hv in Hn.
    destruct (get_units_for_cell k) as [u|]; [|discriminate].
    destruct (collect_units p (units_values u) []) as [used|] eqn:Hused;
      [|discriminate].
    exists u. split; [reflexivity|]. intros y Hy.
    eapply collect_units_present; eauto. now rewrite units_members.
  - intros H. unfold compute_candidates.
    destruct (for_each_done compute_candidates_step (refreshes p) (keys p))
      with (s := p) as [p' [Hp' _]];
      [|apply pointwise_refl, cell_refresh_refl|eauto].
    intros k s Hk Hs.
    pose proof (pointwise_keys _ _ _ Hs) as Hkeys.
    apply get_in_keys in Hk. destruct Hk as [c Hg].
    destruct (pointwise_get _ _ _ _ _ Hs Hg) as [cs [Hgs [Hval _]]].
    pose proof (compute_candidates_step_refreshes k s) as Hstep.
    rewrite (compute_candidates_step_eq s k cs Hgs) in *.
    assert (Hn : exists l, new_candidates s k = Ok l).
    { unfold new_candidates. rewrite Hgs, Hval.
      destruct (value c) eqn:Hv; [eauto|].
      destruct (H k c Hg Hv) as [u [-> Hu]].
      destruct (collect_units_ok s (units_values u)) with (acc := @nil Z)
        as [used ->]; [|eauto].
      intros m peer Hm Hpeer. rewrite Hkeys. apply Hu.
      rewrite <- units_members. apply in_concat. eauto. }
    destruct Hn as [l Hl]. rewrite Hl in *. simpl in Hstep.
    eexists. split; [reflexivity|].
    eapply pointwise_trans; eauto using cell_refresh_trans.
Qed.

Lemma compute_candidates_returns_iff_witness :
  exists p',
    compute_candidates [("R1C1", mkCell (Some 5) []);
                        ("note", mkCell (Some 0) [])] = Done p'.
Proof.
  apply (proj2 (compute_candidates_returns_iff
                  [("R1C1", mkCell (Some 5) []);
                   ("note", mkCell (Some 0) [])])).
  intros k c Hg Hv. exfalso.
  change (get [("R1C1", mkCell (Some 5) []); ("note", mkCell (Some 0) [])] k)
    with (if String.eqb "R1C1" k then Some (mkCell (Some 5) [])
          else if String.eqb "note" k then Some (mkCell (Some 0) [])
               else None) in Hg.
  destruct (String.eqb "R1C1" k); [injection Hg as <-; discriminate Hv|].
  destruct (String.eqb "note" k); [injection Hg as <-; discriminate Hv|].
  discriminate Hg.
Defined.


(* ------------------------------------------------------------------ *)
(** ** Geometry of the grid *)

Lemma digit_cases (i : Z) :
  1 <= i <= 9 ->
  i = 1 \/ i = 2 \/ i = 3 \/ i = 4 \/ i = 5 \/ i = 6 \/ i = 7 \/ i = 8
  \/ i = 9.
Proof. lia. Qed.

Ltac each_digit H :=
  apply digit_cases in H;
  repeat (destruct H as [H|H]; [subst|]); [..|subst].

Lemma grid_keys_closed : closed_keys grid_keys = true.
Proof. vm_compute. reflexivity. Qed.

Lemma grid_keys_cells k :
  In k grid_keys <->
  exists r c, 1 <= r <= 9 /\ 1 <= c <= 9 /\ k = cell_key r c.
Proof.
  unfold grid_keys. rewrite in_flat_map. split.
  - intros [r [Hr Hk]]. apply in_map_iff in Hk. destruct Hk as [c [<- Hc]].
    apply range_In in Hr, Hc. exists r, c. repeat split; lia.
  - intros [r [c [Hr [Hc ->]]]]. exists r. split; [apply range_In; lia|].
    apply in_map. apply range_In. lia.
Qed.

(** X10.  A puzzle whose keys are the 81 cell identifiers, in whatever
    order, is a closed grid: every key is accepted by [get_units_for_cell]
    and the members of its row, column and block are keys of the puzzle.  So
    the operations shown to return on closed grids return on it. *)
Theorem full_grid_closed (p : puzzle) :
  on_grid p ->
  (forall k, In k grid_keys -> In k (keys p)) ->
  grid_closed p = true.
Proof.
  intros Hon Hall. unfold grid_closed, closed_keys.
  apply forallb_forall. intros k Hk.
  destruct (closed_keys_units grid_keys k grid_keys_closed (Hon k Hk))
    as [u [-> Hu]].
  apply forallb_forall. intros peer Hpeer.
  apply in_concat in Hpeer. destruct Hpeer as [members [Hm Hp]].
  apply existsb_exists. exists peer. split; [|apply String.eqb_refl].
  apply Hall. eapply Hu; eauto.
Qed.

Lemma full_grid_closed_witness : grid_closed solved_puzzle = true.
Proof.
  apply full_grid_closed.
  - apply on_grid_check. vm_compute. reflexivity.
  - assert (H : forallb (fun k => existsb (String.eqb k) (keys solved_puzzle))
                  grid_keys = true) by (vm_compute; reflexivity).
    rewrite forallb_forall in H. intros k Hk. specialize (H k Hk).
    apply existsb_exists in H. destruct H as [x [Hx E]].
    apply String.eqb_eq in E. now subst.
Defined.

(** X11.  Rows, columns and blocks partition the grid, each in its own
    way: the cell in row [r] and column [c] lies in row unit [i] exactly when
    [i = r], in column unit [i] exactly when [i = c], and in block [i]
    exactly when [i = 3 * ((r - 1) / 3) + (c - 1) / 3 + 1]. *)
Theorem grid_units_partition (r c i : Z) :
  1 <= r <= 9 -> 1 <= c <= 9 -> 1 <= i <= 9 ->
  (In (cell_key r c) (row_keys i) <-> i = r) /\
  (In (cell_key r c) (col_keys i) <-> i = c) /\
  (In (cell_key r c) (box_keys i) <-> i = 3 * ((r - 1) / 3) + (c - 1) / 3 + 1).
Proof.
  intros Hr Hc Hi.
  assert (Hin : forall k l, In k l <-> existsb (String.eqb k) l = true).
  { intros k l. rewrite existsb_exists. split.
    - intros H. exists k. split; [assumption | apply String.eqb_refl].
    - intros [x [Hx E]]. apply String.eqb_eq in E. now subst. }
  assert (Htable :
            forallb
              (fun r =>
                 forallb
                   (fun c =>
                      forallb
                        (fun i =>
                           Bool.eqb (existsb (String.eqb (cell_key r c))
                                       (row_keys i)) (Z.eqb i r)
                           && Bool.eqb (existsb (String.eqb (cell_key r c))
                                          (col_keys i)) (Z.eqb i c)
                           && Bool.eqb (existsb (String.eqb (cell_key r c))
                                          (box_keys i))
                                (Z.eqb i (3 * ((r - 1) / 3) + (c - 1) / 3 + 1)))
                        (range 1 10))
                   (range 1 10))
              (range 1 10) = true) by (vm_compute; reflexivity).
  rewrite forallb_forall in Htable.
  specialize (Htable r (proj2 (range_In 1 10 r) ltac:(lia))).
  rewrite forallb_forall in Htable.
  specialize (Htable c (proj2 (range_In 1 10 c) ltac:(lia))).
  rewrite forallb_forall in Htable.
  specialize (Htable i (proj2 (range_In 1 10 i) ltac:(lia))).
  apply andb_true_iff in Htable. destruct Htable as [Htable H3].
  apply andb_true_iff in Htable. destruct Htable as [H1 H2].
  apply Bool.eqb_prop in H1, H2, H3.
  rewrite !Hin, H1, H2, H3, !Z.eqb_eq. tauto.
Qed.

Lemma grid_units_partition_witness :
  In (cell_key 4 8) (box_keys 6) <-> 6 = 3 * ((4 - 1) / 3) + (8 - 1) / 3 + 1.
Proof.
  refine (proj2 (proj2 (grid_units_partition 4 8 6 _ _ _))); lia.
Defined.

(** X12.  [get_units_for_cell] and [get_unit] agree on the units.  For the
    cell in row [r] and column [c] of the grid, the row, column and block
    that [get_units_for_cell] returns are the key lists from which
    [get_unit] builds its answer for the references [R<r>], [C<c>] and
    [B<b>], where [b = 3 * ((r - 1) / 3) + (c - 1) / 3 + 1]. *)
Theorem get_unit_matches_units (p : puzzle) (r c : Z) :
  1 <= r <= 9 -> 1 <= c <= 9 ->
  exists u,
    get_units_for_cell (cell_key r c) = Ok u /\
    get_unit p ("R" ++ str_of_int r) = Ok (select p (row u)) /\
    get_unit p ("C" ++ str_of_int c) = Ok (select p (col u)) /\
    get_unit p ("B" ++ str_of_int (3 * ((r - 1) / 3) + (c - 1) / 3 + 1))
    = Ok (select p (block u)).
Proof.
  intros Hr Hc. exists (units_at r c). rewrite !get_unit_keys.
  assert (H : get_units_for_cell (cell_key r c) = Ok (units_at r c) /\
              unit_ref_keys ("R" ++ str_of_int r) = Ok (row (units_at r c)) /\
              unit_ref_keys ("C" ++ str_of_int c) = Ok (col (units_at r c)) /\
              unit_ref_keys
                ("B" ++ str_of_int (3 * ((r - 1) / 3) + (c - 1) / 3 + 1))
              = Ok (block (units_at r c))).
  { each_digit Hr; each_digit Hc; vm_compute; repeat split. }
  destruct H as [H0 [H1 [H2 H3]]]. rewrite H0, H1, H2, H3. auto.
Qed.

Lemma get_unit_matches_units_witness :
  exists u,
    get_units_for_cell "R5C5" = Ok u /\
    get_unit sample_puzzle "B5" = Ok (select sample_puzzle (block u)).
Proof.
  destruct (get_unit_matches_units sample_puzzle 5 5) as [u [H0 [_ [_ H3]]]];
    [lia | lia |].
  exists u. split; [exact H0 | exact H3].
Defined.

(** X13.  On the grid, being in a common unit is symmetric, every cell is a
    member of its own units, and every cell has exactly 20 peers. *)
Theorem grid_peers (x : string) :
  In x grid_keys ->
  In x (members_of x) /\
  List.length (nodup string_dec (remove string_dec x (members_of x)))
  = 20%nat /\
  forall y, In y grid_keys -> (In y (members_of x) <-> In x (members_of y)).
Proof.
  intros Hx.
  assert (Htable :
            forallb
              (fun x =>
                 existsb (String.eqb x) (members_of x)
                 && Nat.eqb
                      (List.length
                         (nodup string_dec
                            (remove string_dec x (members_of x)))) 20)
              grid_keys = true) by (vm_compute; reflexivity).
  rewrite forallb_forall in Htable. specialize (Htable x Hx).
  apply andb_true_iff in Htable. destruct Htable as [Hself Hcount].
  apply existsb_exists in Hself. destruct Hself as [z [Hz E]].
  apply String.eqb_eq in E. subst z. apply Nat.eqb_eq in Hcount.
  split; [exact Hz|]. split; [exact Hcount|].
  intros y Hy. split; apply members_symmetric; assumption.
Qed.

Lemma grid_peers_witness :
  In "R1C1" (members_of "R9C1") <-> In "R9C1" (members_of "R1C1").
Proof.
  refine (proj2 (proj2 (grid_peers "R9C1" _)) "R1C1" _);
    apply grid_keys_cells.
  - exists 9, 1. repeat split; lia.
  - exists 1, 1. repeat split; lia.
Defined.


(* ------------------------------------------------------------------ *)
(** ** Reading a puzzle *)

Lemma range_cons lo n :
  range lo (lo + Z.of_nat (S n)) = lo :: range (lo + 1) (lo + 1 + Z.of_nat n).
Proof.
  unfold range.
  replace (lo + Z.of_nat (S n) - lo) with (Z.of_nat (S n)) by lia.
  replace (lo + 1 + Z.of_nat n - (lo + 1)) with (Z.of_nat n) by lia.
  rewrite !Nat2Z.id. simpl. f_equal; [lia|].
  rewrite <- seq_shift, map_map. apply map_ext. intros i. lia.
Qed.

(** The inner loop of the reader is the inner fold of [puzzle_of_rows] on
    the values of the tokens. *)
Lemma read_tokens_eq r tokens :
  forall c p,
    read_tokens r c tokens p =
    match token_values tokens with
    | Ok vs =>
        Ok (fold_left
              (fun p ct => put p (cell_key r (fst ct)) (mkCell (snd ct) []))
              (combine (range c (c + Z.of_nat (List.length vs))) vs) p)
    | Err e => Err e
    end.
Proof.
  induction tokens as [|t tokens IH]; intros c p; simpl.
  - unfold range. replace (c + 0 - c) with 0 by lia. reflexivity.
  - destruct (token_value t) as [v|e]; [|reflexivity].
    rewrite IH. destruct (token_values tokens) as [vs|e]; [|reflexivity].
    cbn [List.length]. rewrite range_cons. reflexivity.
Qed.

Lemma read_rows_eq rows :
  forall r p,
    read_rows r rows p =
    match rows_values rows with
    | Ok vss =>
        Ok (fold_left
              (fun (p : puzzle) (rt : Z * list (option Z)) =>
                 fold_left
                   (fun p ct =>
                      put p (cell_key (fst rt) (fst ct)) (mkCell (snd ct) []))
                   (combine (range 1 (1 + Z.of_nat (List.length (snd rt))))
                            (snd rt)) p)
              (combine (range r (r + Z.of_nat (List.length vss))) vss) p)
    | Err e => Err e
    end.
Proof.
  induction rows as [|tokens rows IH]; intros r p; simpl.
  - unfold range. replace (r + 0 - r) with 0 by lia. reflexivity.
  - destruct (negb (Nat.eqb (List.length tokens) 9)); [reflexivity|].
    rewrite read_tokens_eq.
    destruct (token_values tokens) as [vs|e]; [|reflexivity].
    rewrite IH. destruct (rows_values rows) as [vss|e]; [|reflexivity].
    cbn [List.length]. rewrite range_cons. reflexivity.
Qed.



Ltac nine_of l :=
  let H := fresh in
  intros H;
  do 9 (destruct l as [|? l]; [discriminate H|]);
  destruct l; [clear H | discriminate H].

(** Nine rows of nine values fill the grid row by row. *)
Lemma puzzle_of_rows_grid vss :
  List.length vss = 9%nat ->
  Forall (fun vs => List.length vs = 9%nat) vss ->
  puzzle_of_rows vss = grid_of_values (List.concat vss).
Proof.
  intros Hlen Hrows.
  do 9 (destruct vss as [|? vss]; [discriminate Hlen|]).
  destruct vss; [clear Hlen | discriminate Hlen].
  repeat match goal with
         | H : Forall _ (_ :: _) |- _ => inversion H; subst; clear H
         | H : Forall _ [] |- _ => clear H
         end.
  repeat match goal with
         | H : List.length ?l = 9%nat |- _ => revert H; nine_of l
         end.
  vm_compute. reflexivity.
Qed.






(* ------------------------------------------------------------------ *)
(** ** Rendering a puzzle *)

Lemma row_texts_eq sc p r cs :
  row_texts sc p r cs =
  if forallb (fun c => has_key p (cell_key r c)) cs
  then Ok (map (fun c => text_at sc p (cell_key r c)) cs)
  else Err KeyError.
Proof.
  induction cs as [|c cs IH]; [reflexivity|].
  cbn [row_texts forallb map]. unfold has_key at 1, text_at at 1.
  destruct (get p (cell_key r c)); cbn [andb]; [|reflexivity].
  rewrite IH.
  destruct (forallb (fun c0 => has_key p (cell_key r c0)) cs); reflexivity.
Qed.

Lemma plain_lines_present sc p rs :
  match plain_lines sc p rs with
  | Ok _ => rows_present p rs = true
  | Err e => e = KeyError /\ rows_present p rs = false
  end.
Proof.
  induction rs as [|r rs IH]; cbn [plain_lines rows_present forallb];
    [reflexivity|].
  rewrite row_texts_eq.
  destruct (forallb (fun c => has_key p (cell_key r c)) (range 1 10));
    [|auto].
  fold (rows_present p rs). cbn [andb].
  destruct (plain_lines sc p rs); [|exact IH].
  cbv zeta. destruct (Z.eqb (r mod 3) 0 && Z.ltb r 9)%bool; exact IH.
Qed.

Lemma markdown_rows_present sc p rs :
  match markdown_rows sc p rs with
  | Ok _ => rows_present p rs = true
  | Err e => e = KeyError /\ rows_present p rs = false
  end.
Proof.
  induction rs as [|r rs IH]; cbn [markdown_rows rows_present forallb];
    [reflexivity|].
  rewrite row_texts_eq.
  destruct (forallb (fun c => has_key p (cell_key r c)) (range 1 10));
    [|auto].
  fold (rows_present p rs). cbn [andb].
  destruct (markdown_rows sc p rs); exact IH.
Qed.

Lemma rows_present_grid p :
  rows_present p (range 1 10) = true <->
  forall k, In k grid_keys -> In k (keys p).
Proof.
  unfold rows_present. rewrite forallb_forall. split.
  - intros H k Hk. apply grid_keys_cells in Hk.
    destruct Hk as [r [c [Hr [Hc ->]]]].
    specialize (H r (proj2 (range_In 1 10 r) ltac:(lia))).
    rewrite forallb_forall in H.
    specialize (H c (proj2 (range_In 1 10 c) ltac:(lia))).
    unfold has_key in H. apply get_in_keys.
    destruct (get p (cell_key r c)); [eauto | discriminate].
  - intros H r Hr. apply forallb_forall. intros c Hc.
    apply range_In in Hr, Hc.
    assert (Hk : In (cell_key r c) (keys p)).
    { apply H, grid_keys_cells. exists r, c. repeat split; lia. }
    apply get_in_keys in Hk. destruct Hk as [v Hv].
    unfold has_key. now rewrite Hv.
Qed.

(** X15.  [render_puzzle], in either layout and with or without
    candidates, returns a text exactly when the puzzle holds all 81 cells of
    the grid; keys beside those are ignored.  When a cell is missing it
    raises [KeyError], and it raises nothing else. *)
Theorem render_puzzle_total (p : puzzle) (as_markdown show_candidates : bool) :
  ((exists text, render_puzzle p as_markdown show_candidates = Ok text) <->
   forall k, In k grid_keys -> In k (keys p)) /\
  (forall e, render_puzzle p as_markdown show_candidates = Err e ->
             e = KeyError).
Proof.
  rewrite <- rows_present_grid. unfold render_puzzle.
  destruct as_markdown.
  - pose proof (markdown_rows_present show_candidates p (range 1 10)) as H.
    destruct (markdown_rows show_candidates p (range 1 10)) as [rows|e].
    + split; [split; eauto | discriminate].
    + destruct H as [-> H]. rewrite H. split; [|congruence].
      split; [intros [text Ht]|]; discriminate.
  - pose proof (plain_lines_present show_candidates p (range 1 10)) as H.
    destruct (plain_lines show_candidates p (range 1 10)) as [rows|e].
    + split; [split; eauto | discriminate].
    + destruct H as [-> H]. rewrite H. split; [|congruence].
      split; [intros [text Ht]|]; discriminate.
Qed.

Lemma render_puzzle_total_witness :
  exists text, render_puzzle sample_puzzle false false = Ok text.
Proof.
  apply (proj1 (render_puzzle_total sample_puzzle false false)).
  assert (H : forallb (fun k => existsb (String.eqb k) (keys sample_puzzle))
                grid_keys = true) by (vm_compute; reflexivity).
  rewrite forallb_forall in H. intros k Hk. specialize (H k Hk).
  apply existsb_exists in H. destruct H as [x [Hx E]].
  apply String.eqb_eq in E. now subst.
Defined.


(* ------------------------------------------------------------------ *)
(** ** From the plain rendering back to the puzzle *)

Lemma value_token_facts v :
  digit_or_blank v ->
  is_token_char (value_char v) = true /\
  token_value (value_token v) = Ok v /\
  (forall sc c, value c = v -> (sc = true -> v = None -> candidates c = []) ->
                cell_text sc c = value_token v).
Proof.
  destruct v as [d|]; simpl; intros H.
  - assert (Hc : forall sc c, value c = Some d -> cell_text sc c = str_of_int d).
    { intros sc c Hv. unfold cell_text. now rewrite Hv. }
    each_digit H; (repeat split; [intros sc c Hv _; rewrite (Hc sc c Hv)];
                   reflexivity).
  - repeat split. intros sc c Hv Hsc. unfold cell_text. rewrite Hv.
    destruct sc; [|reflexivity]. now rewrite (Hsc eq_refl eq_refl).
Qed.

Lemma token_char_facts c :
  is_token_char c = true ->
  PyText.is_white c = false /\ PyText.is_break c = false /\
  Ascii.eqb c "|" = false /\ Ascii.eqb c "-" = false.
Proof.
  destruct c as [[] [] [] [] [] [] [] []]; vm_compute; intros H;
    try discriminate H; repeat split.
Qed.

Lemma token_values_of_values vs :
  Forall digit_or_blank vs -> token_values (map value_token vs) = Ok vs.
Proof.
  induction 1 as [|v vs Hv _ IH]; simpl; [reflexivity|].
  destruct (value_token_facts v Hv) as [_ [-> _]]. now rewrite IH.
Qed.

Lemma lines_of_single l : no_break l = true -> PyText.lines_of l = [l].
Proof.
  induction l as [|c l IH]; simpl; [reflexivity|]. intros H.
  apply andb_true_iff in H. destruct H as [Hc Hl].
  apply negb_true_iff in Hc. rewrite Hc, (IH Hl). reflexivity.
Qed.

Lemma lines_of_app l rest :
  no_break l = true ->
  PyText.lines_of (l ++ String "010" rest) = l :: PyText.lines_of rest.
Proof.
  induction l as [|c l IH]; intros H.
  - destruct rest; reflexivity.
  - cbn [no_break] in H. apply andb_true_iff in H. destruct H as [Hc Hl].
    apply negb_true_iff in Hc.
    change (String c l ++ String "010" rest)
      with (String c (l ++ String "010" rest)).
    cbn [PyText.lines_of]. rewrite Hc, (IH Hl). reflexivity.
Qed.

Lemma lines_of_join ls :
  ls <> [] -> Forall (fun l => no_break l = true) ls ->
  PyText.lines_of (PyText.join newline ls) = ls.
Proof.
  induction ls as [|l ls IH]; [contradiction|]. intros _ H.
  inversion H as [|? ? Hl Hls]; subst. destruct ls as [|l' ls].
  - simpl. now apply lines_of_single.
  - change (PyText.join newline (l :: l' :: ls))
      with (l ++ String "010" (PyText.join newline (l' :: ls))).
    rewrite lines_of_app by assumption. f_equal.
    apply IH; [discriminate | assumption].
Qed.

Lemma drop_last_empty_keep ls :
  Forall (fun l => l <> EmptyString) ls -> PyText.drop_last_empty ls = ls.
Proof.
  induction 1 as [|l ls Hl Hls IH]; [reflexivity|].
  destruct ls as [|l' ls].
  - simpl. destruct (String.eqb_spec l ""); [contradiction | reflexivity].
  - change (PyText.drop_last_empty (l :: l' :: ls))
      with (l :: PyText.drop_last_empty (l' :: ls)).
    now rewrite IH.
Qed.

(** Joined with line feeds and split again, non-empty lines without line
    boundaries come back as they were. *)
Lemma splitlines_join ls :
  ls <> [] ->
  Forall (fun l => no_break l = true) ls ->
  Forall (fun l => l <> EmptyString) ls ->
  PyText.splitlines (PyText.join newline ls) = ls.
Proof.
  intros Hne Hnb Hnonempty. unfold PyText.splitlines.
  rewrite lines_of_join by assumption. now apply drop_last_empty_keep.
Qed.


Lemma remove_char_keep x c s :
  Ascii.eqb c x = false ->
  PyText.remove_char x (String c s) = String c (PyText.remove_char x s).
Proof. intros H. simpl. now rewrite H. Qed.

Lemma remove_char_drop x s :
  PyText.remove_char x (String x s) = PyText.remove_char x s.
Proof. simpl. now rewrite Ascii.eqb_refl. Qed.

Lemma plain_row_line c1 c2 c3 c4 c5 c6 c7 c8 c9 :
  is_token_char c1 = true -> is_token_char c2 = true ->
  is_token_char c3 = true -> is_token_char c4 = true ->
  is_token_char c5 = true -> is_token_char c6 = true ->
  is_token_char c7 = true -> is_token_char c8 = true ->
  is_token_char c9 = true ->
  let tokens := map (fun c => String c EmptyString)
                    [c1; c2; c3; c4; c5; c6; c7; c8; c9] in
  line_tokens (plain_row tokens) = Some tokens /\
  no_break (plain_row tokens) = true /\
  plain_row tokens <> EmptyString /\
  String.length (plain_row tokens) = 21%nat.
Proof.
  intros H1 H2 H3 H4 H5 H6 H7 H8 H9 tokens.
  apply token_char_facts in H1, H2, H3, H4, H5, H6, H7, H8, H9.
  destruct H1 as [W1 [B1 [P1 D1]]], H2 as [W2 [B2 [P2 _]]],
    H3 as [W3 [B3 [P3 _]]], H4 as [W4 [B4 [P4 _]]], H5 as [W5 [B5 [P5 _]]],
    H6 as [W6 [B6 [P6 _]]], H7 as [W7 [B7 [P7 _]]], H8 as [W8 [B8 [P8 _]]],
    H9 as [W9 [B9 [P9 _]]].
  assert (E : plain_row tokens =
              String c1 (String " " (String c2 (String " " (String c3
              (String " " (String "|" (String " " (String c4 (String " "
              (String c5 (String " " (String c6 (String " " (String "|"
              (String " " (String c7 (String " " (String c8 (String " "
              (String c9 EmptyString))))))))))))))))))))) by reflexivity.
  rewrite E. clear E. split; [|split; [|split]].
  - unfold line_tokens, PyText.strip.
    cbn [PyText.lstrip]. rewrite W1.
    cbn [PyText.rstrip_aux]. rewrite W9.
    cbn [PyText.starts_with String.eqb]. rewrite D1. cbn [orb].
    repeat first [ rewrite remove_char_keep by (assumption || reflexivity)
                 | rewrite remove_char_drop ].
    cbn [PyText.remove_char].
    unfold PyText.split. cbn [PyText.split_aux].
    rewrite W1, W2, W3, W4, W5, W6, W7, W8, W9.
    change (PyText.is_white " ") with true. cbn iota beta.
    reflexivity.
  - cbn [no_break]. rewrite B1, B2, B3, B4, B5, B6, B7, B8, B9. reflexivity.
  - discriminate.
  - reflexivity.
Qed.

Lemma plain_row_values vs :
  List.length vs = 9%nat -> Forall digit_or_blank vs ->
  line_tokens (plain_row (map value_token vs)) = Some (map value_token vs) /\
  no_break (plain_row (map value_token vs)) = true /\
  plain_row (map value_token vs) <> EmptyString /\
  String.length (plain_row (map value_token vs)) = 21%nat.
Proof.
  nine_of vs. intros H.
  repeat match goal with
         | H : Forall _ (_ :: _) |- _ => inversion H; subst; clear H
         | H : Forall _ [] |- _ => clear H
         end.
  repeat match goal with
         | H : digit_or_blank _ |- _ =>
             apply value_token_facts in H; destruct H as [H _]
         end.
  apply (plain_row_line (value_char _) (value_char _) (value_char _)
           (value_char _) (value_char _) (value_char _) (value_char _)
           (value_char _) (value_char _)); assumption.
Qed.

Lemma dashes_skipped :
  line_tokens dashes = None /\ no_break dashes = true /\
  dashes <> EmptyString.
Proof. repeat split. discriminate. Qed.

Lemma row_texts_values p sc r :
  plain_readable p sc -> 1 <= r <= 9 ->
  row_texts sc p r (range 1 10) = Ok (map value_token (row_values_of p r)) /\
  Forall digit_or_blank (row_values_of p r).
Proof.
  intros H Hr.
  assert (Hcell : forall c, In c (range 1 10) ->
             exists cell,
               get p (cell_key r c) = Some cell /\
               digit_or_blank (value cell) /\
               (sc = true -> value cell = None -> candidates cell = [])).
  { intros c Hc. apply range_In in Hc. apply H, grid_keys_cells.
    exists r, c. repeat split; lia. }
  split.
  - rewrite row_texts_eq.
    assert (Hall : forallb (fun c => has_key p (cell_key r c)) (range 1 10)
                   = true).
    { apply forallb_forall. intros c Hc.
      destruct (Hcell c Hc) as [cell [Hg _]]. unfold has_key. now rewrite Hg. }
    rewrite Hall. f_equal. unfold row_values_of. rewrite map_map.
    apply map_ext_in. intros c Hc.
    destruct (Hcell c Hc) as [cell [Hg [Hd Hs]]].
    unfold text_at, value_at. rewrite Hg.
    apply (value_token_facts (value cell) Hd); auto.
  - unfold row_values_of. apply Forall_forall. intros v Hv.
    apply in_map_iff in Hv. destruct Hv as [c [<- Hc]].
    destruct (Hcell c Hc) as [cell [Hg [Hd _]]].
    unfold value_at. now rewrite Hg.
Qed.

Lemma row_values_of_length p r : List.length (row_values_of p r) = 9%nat.
Proof. reflexivity. Qed.

Lemma plain_lines_layout sc p (T : Z -> list string) :
  (forall r, 1 <= r <= 9 ->
             row_texts sc p r (range 1 10) = Ok (T r) /\
             String.length (plain_row (T r)) = 21%nat) ->
  plain_lines sc p (range 1 10) = Ok (plain_layout (fun r => plain_row (T r))).
Proof.
  intros H.
  change (plain_lines sc p (range 1 10))
    with (plain_lines sc p [1; 2; 3; 4; 5; 6; 7; 8; 9]).
  cbn [plain_lines].
  destruct (H 1 ltac:(lia)) as [-> _], (H 2 ltac:(lia)) as [-> _],
    (H 3 ltac:(lia)) as [-> L3], (H 4 ltac:(lia)) as [-> _],
    (H 5 ltac:(lia)) as [-> _], (H 6 ltac:(lia)) as [-> L6],
    (H 7 ltac:(lia)) as [-> _], (H 8 ltac:(lia)) as [-> _],
    (H 9 ltac:(lia)) as [-> _].
  rewrite L3, L6.
  simpl (Z.eqb _ _). simpl (Z.ltb _ _). cbn [andb]. reflexivity.
Qed.

Lemma read_puzzle_from_text_eq text :
  read_puzzle_from_text text =
  if negb (Nat.eqb (List.length (text_rows text)) 9)
  then Err ValueError
  else match rows_values (text_rows text) with
       | Ok vss => Ok (puzzle_of_rows vss)
       | Err e => Err e
       end.
Proof.
  unfold read_puzzle_from_text. cbv zeta.
  destruct (negb (Nat.eqb (List.length (text_rows text)) 9)); [reflexivity|].
  rewrite read_rows_eq. destruct (rows_values (text_rows text)); reflexivity.
Qed.

Lemma rows_values_of_values vss :
  Forall (fun vs => List.length vs = 9%nat /\ Forall digit_or_blank vs) vss ->
  rows_values (map (map value_token) vss) = Ok vss.
Proof.
  induction 1 as [|vs vss [Hl Hd] _ IH]; [reflexivity|].
  cbn [map rows_values]. rewrite length_map, Hl. cbn [Nat.eqb negb].
  now rewrite token_values_of_values, IH.
Qed.

(** A puzzle with distinct keys and no candidates is the grid of its own
    values. *)
Lemma combine_own_values p :
  NoDup (keys p) ->
  (forall k c, In (k, c) p -> candidates c = []) ->
  combine (keys p) (map (fun v => mkCell v []) (map (value_at p) (keys p))) = p.
Proof.
  induction p as [|[k c] p IH]; intros Hnd Hc; [reflexivity|].
  cbn [keys map fst combine] in *. inversion Hnd as [|? ? Hk Hnd']; subst.
  f_equal.
  - unfold value_at. simpl. rewrite String.eqb_refl.
    specialize (Hc k c (or_introl eq_refl)). destruct c as [v l].
    simpl in *. now subst.
  - transitivity
      (combine (keys p)
         (map (fun v => mkCell v []) (map (value_at p) (keys p))));
      [|apply IH; [exact Hnd' | intros k' c' H; apply (Hc k' c'); now right]].
    unfold keys. f_equal. f_equal. apply map_ext_in. intros k' Hk'.
    unfold value_at. simpl. destruct (String.eqb_spec k k'); [|reflexivity].
    subst. contradiction.
Qed.

Lemma in_get_nodup (p : puzzle) k c :
  NoDup (keys p) -> In (k, c) p -> get p k = Some c.
Proof.
  induction p as [|[k1 c1] p IH]; intros Hnd Hin; [destruct Hin|].
  cbn [keys map fst] in Hnd. inversion Hnd as [|? ? Hk1 Hnd']; subst.
  simpl. destruct Hin as [[= -> ->]|Hin].
  - now rewrite String.eqb_refl.
  - destruct (String.eqb_spec k1 k) as [->|_]; [|now apply IH].
    exfalso. apply Hk1. change k with (fst (k, c)). now apply in_map.
Qed.

Lemma grid_keys_NoDup : NoDup grid_keys.
Proof. apply nodupb_NoDup. vm_compute. reflexivity. Qed.

(** X16.  The plain rendering can be read back.  If the puzzle holds the 81
    cells of the grid, each Solved with a digit from 1 to 9 or Unsolved, and
    candidates are not shown (or there are none), then [render_puzzle]
    returns a text on which [read_puzzle_from_text] returns the grid with
    the same values and no candidates.  For a puzzle whose keys are the 81
    identifiers in row-major order and whose cells have no candidates, as
    the reader builds it, that grid is the puzzle itself. *)
Theorem render_read_round_trip (p : puzzle) (show_candidates : bool) :
  plain_readable p show_candidates ->
  exists text,
    render_puzzle p false show_candidates = Ok text /\
    read_puzzle_from_text text
    = Ok (grid_of_values (map (value_at p) grid_keys)) /\
    (keys p = grid_keys ->
     (forall k c, get p k = Some c -> candidates c = []) ->
     read_puzzle_from_text text = Ok p).
Proof.
  intros H.
  set (vs := fun r => row_values_of p r).
  set (line := fun r => plain_row (map value_token (vs r))).
  assert (Hrow : forall r, 1 <= r <= 9 ->
             row_texts show_candidates p r (range 1 10)
             = Ok (map value_token (vs r)) /\
             Forall digit_or_blank (vs r)).
  { intros r Hr. now apply row_texts_values. }
  assert (Hline : forall r, 1 <= r <= 9 ->
             line_tokens (line r) = Some (map value_token (vs r)) /\
             no_break (line r) = true /\ line r <> EmptyString /\
             String.length (line r) = 21%nat).
  { intros r Hr. apply plain_row_values; [reflexivity | apply Hrow, Hr]. }
  assert (Hlines : plain_lines show_candidates p (range 1 10)
                   = Ok (plain_layout line)).
  { apply (plain_lines_layout show_candidates p
             (fun r => map value_token (vs r))).
    intros r Hr. split; [apply Hrow, Hr | apply Hline, Hr]. }
  exists (PyText.join newline (plain_layout line)).
  assert (Hread : read_puzzle_from_text
                    (PyText.join newline (plain_layout line))
                  = Ok (grid_of_values (map (value_at p) grid_keys))).
  { rewrite read_puzzle_from_text_eq.
    assert (Hrows : text_rows (PyText.join newline (plain_layout line))
                    = map (map value_token)
                        [vs 1; vs 2; vs 3; vs 4; vs 5; vs 6; vs 7; vs 8; vs 9]).
    { unfold text_rows. destruct dashes_skipped as [Hd [Hdb Hdn]].
      rewrite splitlines_join.
      - unfold plain_layout. cbn [flat_map]. rewrite Hd.
        rewrite (proj1 (Hline 1 ltac:(lia))), (proj1 (Hline 2 ltac:(lia))),
          (proj1 (Hline 3 ltac:(lia))), (proj1 (Hline 4 ltac:(lia))),
          (proj1 (Hline 5 ltac:(lia))), (proj1 (Hline 6 ltac:(lia))),
          (proj1 (Hline 7 ltac:(lia))), (proj1 (Hline 8 ltac:(lia))),
          (proj1 (Hline 9 ltac:(lia))).
        reflexivity.
      - discriminate.
      - unfold plain_layout.
        repeat (constructor; [first [exact Hdb | apply Hline; lia]|]).
        constructor.
      - unfold plain_layout.
        repeat (constructor; [first [exact Hdn | apply Hline; lia]|]).
        constructor. }
    rewrite Hrows. cbn [map List.length Nat.eqb negb].
    change (map value_token (vs 1) :: map value_token (vs 2)
              :: map value_token (vs 3) :: map value_token (vs 4)
              :: map value_token (vs 5) :: map value_token (vs 6)
              :: map value_token (vs 7) :: map value_token (vs 8)
              :: [map value_token (vs 9)])
      with (map (map value_token)
              [vs 1; vs 2; vs 3; vs 4; vs 5; vs 6; vs 7; vs 8; vs 9]).
    rewrite rows_values_of_values.
    - rewrite puzzle_of_rows_grid; [reflexivity | reflexivity |].
      repeat constructor.
    - repeat (constructor; [split; [reflexivity | apply Hrow; lia]|]).
      constructor. }
  split; [|split; [exact Hread|]].
  - unfold render_puzzle. now rewrite Hlines.
  - intros Hkeys Hnone. rewrite Hread. f_equal. unfold grid_of_values.
    rewrite <- Hkeys. apply combine_own_values.
    + rewrite Hkeys. apply grid_keys_NoDup.
    + intros k c Hin. apply (Hnone k c), in_get_nodup; [|exact Hin].
      rewrite Hkeys. apply grid_keys_NoDup.
Qed.

Lemma render_read_round_trip_witness :
  exists text,
    render_puzzle sample_puzzle false false = Ok text /\
    read_puzzle_from_text text = Ok sample_puzzle.
Proof.
  assert (Hr : plain_readable sample_puzzle false).
  { intros k Hk.
    assert (Hall :
              forallb
                (fun k =>
                   match get sample_puzzle k with
                   | Some c =>
                       match value c with
                       | Some d => Z.leb 1 d && Z.leb d 9
                       | None => true
                       end
                   | None => false
                   end) grid_keys = true) by (vm_compute; reflexivity).
    rewrite forallb_forall in Hall. specialize (Hall k Hk).
    destruct (get sample_puzzle k) as [c|]; [|discriminate].
    exists c. split; [reflexivity|]. split; [|discriminate].
    unfold digit_or_blank. destruct (value c); [|exact I]. lia. }
  destruct (render_read_round_trip sample_puzzle false Hr)
    as [text [Hrender [_ Hback]]].
  exists text. split; [exact Hrender|]. apply Hback.
  - vm_compute. reflexivity.
  - intros k c Hg. apply get_in in Hg.
    assert (Hall : forallb
                     (fun e : string * cell =>
                        match candidates (snd e) with
                        | [] => true
                        | _ => false
                        end) sample_puzzle = true) by (vm_compute; reflexivity).
    rewrite forallb_forall in Hall. specialize (Hall (k, c) Hg). simpl in Hall.
    destruct (candidates c); [reflexivity | discriminate].
Defined.


(* ------------------------------------------------------------------ *)
(** ** The checkers on solved grids and under recomputation *)

Lemma all_units_on_grid ks k :
  In ks all_units -> In k ks -> In k grid_keys.
Proof.
  assert (H : forallb
                (fun ks => forallb (fun k => existsb (String.eqb k) grid_keys) ks)
                all_units = true) by (vm_compute; reflexivity).
  rewrite forallb_forall in H. intros Hks Hk. specialize (H ks Hks).
  rewrite forallb_forall in H. specialize (H k Hk).
  apply existsb_exists in H. destruct H as [x [Hx E]].
  apply String.eqb_eq in E. now subst.
Qed.

Lemma all_units_nine ks : In ks all_units -> List.length ks = 9%nat.
Proof.
  assert (H : forallb (fun ks => Nat.eqb (List.length ks) 9) all_units = true)
    by (vm_compute; reflexivity).
  rewrite forallb_forall in H. intros Hks. now apply Nat.eqb_eq, H.
Qed.

Lemma solved_values_full p ks :
  (forall k, In k ks -> exists c d, get p k = Some c /\ value c = Some d) ->
  List.length (solved_values (entries p ks)) = List.length ks.
Proof.
  induction ks as [|k ks IH]; intros H; [reflexivity|].
  destruct (H k (or_introl eq_refl)) as [c [d [Hg Hv]]].
  unfold entries, solved_values in *. cbn [flat_map]. rewrite Hg.
  rewrite flat_map_app, length_app. cbn [flat_map snd]. rewrite Hv.
  cbn [List.length app]. rewrite IH; [reflexivity|].
  intros k' Hk'. apply H. now right.
Qed.

(** X17.  On a puzzle that holds the 81 cells of the grid, all Solved, the
    two checkers together recognise the solutions: both return [True]
    exactly when in each of the 27 units the nine values are the digits from
    1 to 9 in some order. *)
Theorem checkers_recognise_solution (p : puzzle) :
  (forall k, In k grid_keys ->
             exists c d, get p k = Some c /\ value c = Some d) ->
  (check_strict_consistency p = Ok true /\
   check_candidate_consistency p = Ok true) <->
  (forall ks,
     In ks all_units ->
     Permutation (solved_values (entries p ks)) (range 1 10)).
Proof.
  intros Hfull.
  rewrite check_strict_consistency_eq, check_candidate_consistency_eq.
  pose proof all_units_NoDup as Hnd. rewrite Forall_forall in Hnd.
  assert (Hrange : NoDup (range 1 10)).
  { apply sorted_NoDup, (range_sorted 1 9). }
  split.
  - intros [Hs Hc]. apply Ok_inj in Hs, Hc.
    rewrite forallb_forall in Hs, Hc. intros ks Hks.
    apply Permutation_sym, NoDup_Permutation_bis; [exact Hrange | |].
    + rewrite solved_values_full, (all_units_nine ks Hks); [reflexivity|].
      intros k Hk. apply Hfull. eapply all_units_on_grid; eauto.
    + intros d Hd. apply range_In in Hd. apply solved_values_In.
      pose proof (proj1 (coverage_unit_iff p ks (Hnd ks Hks)) (Hc ks Hks))
        as Hcov.
      destruct (Hcov d ltac:(lia)) as [Hh|[k [c [Hk [Hg [Hv _]]]]]];
        [exact Hh|].
      exfalso. destruct (Hfull k (all_units_on_grid ks k Hks Hk))
        as [c' [d' [Hg' Hv']]]. congruence.
  - intros Hperm. split; f_equal; apply forallb_forall; intros ks Hks.
    + rewrite select_entries by auto.
      apply (strict_scan_NoDup _ []); [constructor|]. simpl.
      eapply Permutation_NoDup; [apply Permutation_sym, Hperm, Hks|].
      exact Hrange.
    + apply coverage_unit_iff; [auto|]. intros d Hd. left.
      apply solved_values_In.
      eapply Permutation_in; [apply Permutation_sym, Hperm, Hks|].
      apply range_In. lia.
Qed.

Lemma checkers_recognise_solution_witness :
  Permutation (solved_values (entries solved_puzzle (box_keys 5)))
    (range 1 10).
Proof.
  assert (Hfull : forall k,
             In k grid_keys ->
             exists c d, get solved_puzzle k = Some c /\ value c = Some d).
  { intros k Hk.
    assert (H : forallb
                  (fun k => match get solved_puzzle k with
                            | Some c => negb (is_none (value c))
                            | None => false
                            end) grid_keys = true)
      by (vm_compute; reflexivity).
    rewrite forallb_forall in H. specialize (H k Hk).
    destruct (get solved_puzzle k) as [c|]; [|discriminate].
    destruct (value c) as [d|] eqn:Hv; [|discriminate].
    exists c, d. split; [reflexivity | exact Hv]. }
  apply (proj1 (checkers_recognise_solution solved_puzzle Hfull)).
  - split; vm_compute; reflexivity.
  - vm_compute. auto 30.
Defined.

Lemma unit_strict_same_values p p' ks :
  same_values p p' -> unit_strict p ks -> unit_strict p' ks.
Proof.
  intros Hsv H k1 k2 c1 c2 d H1 H2 Hne G1 G2 V1 V2.
  pose proof (Hsv k1) as E1. pose proof (Hsv k2) as E2.
  rewrite G1 in E1. rewrite G2 in E2. simpl in E1, E2.
  destruct (get p k1) as [b1|] eqn:B1; [|discriminate].
  destruct (get p k2) as [b2|] eqn:B2; [|discriminate].
  simpl in E1, E2. apply (H k1 k2 b1 b2 d); auto; congruence.
Qed.

Lemma same_values_sym p p' : same_values p p' -> same_values p' p.
Proof. intros H k. symmetry. apply H. Qed.

(** X18.  The verdict of [check_strict_consistency] depends on the solved
    values only.  So it is the same before and after [compute_candidates],
    and before and after the [eliminate_digit] of [python/sudoku.py]. *)
Theorem check_strict_consistency_values (p p' : puzzle) :
  (same_values p p' ->
   check_strict_consistency p' = check_strict_consistency p) /\
  (compute_candidates p = Done p' ->
   check_strict_consistency p' = check_strict_consistency p) /\
  (forall k d,
     SudokuPy.eliminate_digit p k d = Done p' ->
     check_strict_consistency p' = check_strict_consistency p).
Proof.
  assert (Hmain : forall q q',
             same_values q q' ->
             check_strict_consistency q' = check_strict_consistency q).
  { intros q q' Hsv. rewrite !check_strict_consistency_eq. f_equal.
    pose proof all_units_NoDup as Hnd. rewrite Forall_forall in Hnd.
    apply Bool.eq_true_iff_eq. rewrite !forallb_forall.
    assert (Hu : forall ks,
               In ks all_units ->
               (strict_scan (select q' ks) [] = true <->
                strict_scan (select q ks) [] = true)).
    { intros ks Hks. rewrite !strict_unit_iff by auto. split.
      - apply unit_strict_same_values, same_values_sym, Hsv.
      - apply unit_strict_same_values, Hsv. }
    split; intros H ks Hks; apply Hu; auto. }
  split; [apply Hmain|]. split.
  - intros Hrun. apply Hmain, refreshes_same_values.
    pose proof (compute_candidates_loop_refreshes (keys p) p) as H.
    unfold compute_candidates in Hrun. now rewrite Hrun in H.
  - intros k d. unfold SudokuPy.eliminate_digit.
    destruct (get p k) as [c|] eqn:Hg; [|discriminate].
    destruct (value c) eqn:Hv; cbn [is_none negb]; [discriminate|].
    destruct (mem d (candidates c)); intros [= <-]; [|reflexivity].
    apply Hmain. intros k'. destruct (string_dec k k') as [<-|Hne].
    + rewrite get_update_same, Hg. reflexivity.
    + now rewrite get_update_other.
Qed.

Lemma check_strict_consistency_values_witness :
  check_strict_consistency sample_candidates
  = check_strict_consistency sample_puzzle.
Proof.
  exact (proj1 (proj2 (check_strict_consistency_values sample_puzzle
                         sample_candidates))
           sample_candidates_run).
Defined.


(* ------------------------------------------------------------------ *)
(** ** When [eliminate_digit] returns *)


